(** * The bounded TTL cache of [src/cache.ts]

    A shallow embedding of [createCache] and of the six methods of the object
    it returns, followed by the properties of the cache that the
    specification states.

    - A JavaScript [Map<string, CacheEntry<T>>] is an association list in
      insertion order whose keys are pairwise distinct ([JsMap]).
    - Every call of [Date.now()] is an argument of the operation that makes
      it, in the order in which the calls are evaluated. Instants and
      durations are integers of milliseconds ([Z]), as are [ttl] and
      [maxSize].
    - [T] is the type of the values that are not [undefined]; an
      [undefined] result is [None].
    - The functions of the closure ([Closure]) pass the captured [store]
      explicitly.
    - Cache objects live in a heap of instances ([Cache]): [createCache]
      allocates a fresh instance, and a method call runs the closure body on
      the store of the instance it is called on. *)

From stdpp Require Import base decidable option numbers list strings.

Local Open Scope Z_scope.

(** ** Data model *)

(** [interface CacheEntry<T>]. *)
Record CacheEntry (T : Type) : Type := mkEntry {
  value : T;
  expiresAt : Z;
}.
Arguments mkEntry {T} _ _.
Arguments value {T} _.
Arguments expiresAt {T} _.

(** [interface CacheOptions]. *)
Record CacheOptions : Type := mkOptions {
  ttl : Z;
  maxSize : Z;
}.

(** ** The built-in [Map], restricted to what [cache.ts] calls *)

Module JsMap.
(** Bindings in insertion order. *)
Abbreviation t V := (list (string * V)).

Section JsMap.
Context {V : Type}.
#[local] Abbreviation t := (t V).

(** [new Map()]. *)
Definition empty : t := [].

(** The keys of a [Map] are pairwise distinct. *)
Definition wf (m : t) : Prop := NoDup m.*1.

(** [m.keys()], in iteration order. *)
Definition keys (m : t) : list string := m.*1.

(** [m.size]. *)
Definition size (m : t) : nat := length m.

(** [m.get(key)]: [None] stands for [undefined]. *)
Fixpoint get (key : string) (m : t) : option V :=
  match m with
  | [] => None
  | (k, v) :: m' => if decide (k = key) then Some v else get key m'
  end.

(** [m.has(key)]. *)
Definition has (key : string) (m : t) : bool :=
  bool_decide (key ∈ keys m).

(** [m.set(key, v)]: when the map has the key, the value of its record is
    replaced and the record stays where it is in the iteration order;
    otherwise a new record is appended (ECMAScript, Map.prototype.set). *)
Fixpoint set (key : string) (v : V) (m : t) : t :=
  match m with
  | [] => [(key, v)]
  | (k, v') :: m' =>
      if decide (k = key) then (k, v) :: m' else (k, v') :: set key v m'
  end.

(** The map that [m.delete(key)] leaves. *)
Definition remove (key : string) (m : t) : t :=
  filter (λ p, p.1 ≠ key) m.

(** [m.delete(key)]: the result says whether the key was there. *)
Definition delete (key : string) (m : t) : bool * t :=
  (has key m, remove key m).

(** [m.clear()]. *)
Definition clear (m : t) : t := [].

(** [m.keys().next().value]. *)
Definition first_key (m : t) : option string := head (keys m).
End JsMap.
End JsMap.

(** ** The closure of [createCache] *)

Module Closure.
(** [const store: Map<string, CacheEntry<T>>]. *)
Abbreviation Store T := (JsMap.t (CacheEntry T)).

Section Closure.
Context {T : Type}.
#[local] Abbreviation Store := (Store T).

(** The two constants that the closure destructures from [options]. *)
Variable options : CacheOptions.

(** One turn of the loop of [evictExpired]. *)
Definition evictExpired_step (now : Z) (store : Store)
    (p : string * CacheEntry T) : Store :=
  if decide (expiresAt p.2 < now) then (JsMap.delete p.1 store).2 else store.

(** [evictExpired]: the loop visits every entry the store had on entry;
    [now] is read once, before the loop. *)
Definition evictExpired (now : Z) (store : Store) : Store :=
  foldl (evictExpired_step now) store store.

(** [evictOldest]. *)
Definition evictOldest (store : Store) : Store :=
  if decide (maxSize options ≤ Z.of_nat (JsMap.size store)) then
    match JsMap.first_key store with
    | Some firstKey => (JsMap.delete firstKey store).2
    | None => store
    end
  else store.

(** [get]: [now1] is the reading of [evictExpired], [now2] the one of the
    second test, made only when the entry is there. *)
Definition get (now1 now2 : Z) (key : string) (store : Store)
    : option T * Store :=
  let store := evictExpired now1 store in
  match JsMap.get key store with
  | None => (None, store)
  | Some entry =>
      if decide (expiresAt entry < now2)
      then (None, (JsMap.delete key store).2)
      else (Some (value entry), store)
  end.

(** [set]: [now1] is the reading of [evictExpired], [now2] the one that
    dates the new entry. *)
Definition set (now1 now2 : Z) (key : string) (v : T) (store : Store)
    : Store :=
  let store := evictExpired now1 store in
  let store := evictOldest store in
  let entry := mkEntry v (now2 + ttl options) in
  JsMap.set key entry store.

(** [delete]. *)
Definition delete (key : string) (store : Store) : bool * Store :=
  JsMap.delete key store.

(** [clear]. *)
Definition clear (store : Store) : Store := JsMap.clear store.

(** [size]. *)
Definition size (now : Z) (store : Store) : nat * Store :=
  let store := evictExpired now store in
  (JsMap.size store, store).
End Closure.
End Closure.

(** ** Cache objects *)

Module Cache.
Section Cache.
Context {T : Type}.
#[local] Abbreviation Store := (Closure.Store T).

(** What one call of [createCache] allocates: the captured [options] and
    the [store] of that call. *)
Record Instance : Type := mkInstance {
  options : CacheOptions;
  store : Store;
}.

(** All the instances allocated so far; a cache object is the index of its
    instance. *)
#[local] Abbreviation Heap := (list Instance).

(** [createCache(options)]: a new instance with a store of its own. *)
Definition createCache (o : CacheOptions) (h : Heap) : nat * Heap :=
  (length h, h ++ [mkInstance o JsMap.empty]).

(** A method of the cache [c] runs its body on the store of [c]. The result
    is [None] only when [c] is not a cache of the heap. *)
Definition method {A : Type} (c : nat)
    (body : CacheOptions → Store → A * Store) (h : Heap)
    : option (A * Heap) :=
  inst ← h !! c;
  let '(a, store') := body (options inst) (store inst) in
  Some (a, <[c := mkInstance (options inst) store']> h).

Definition get (c : nat) (now1 now2 : Z) (key : string)
    : Heap → option (option T * Heap) :=
  method c (λ _, Closure.get now1 now2 key).

Definition set (c : nat) (now1 now2 : Z) (key : string) (v : T)
    : Heap → option (unit * Heap) :=
  method c (λ o store, (tt, Closure.set o now1 now2 key v store)).

(** [has]: [createCache(options).get(key)], then the test against
    [undefined]. *)
Definition has (c : nat) (now1 now2 : Z) (key : string) (h : Heap)
    : option (bool * Heap) :=
  inst ← h !! c;
  let '(fresh, h) := createCache (options inst) h in
  '(v, h) ← get fresh now1 now2 key h;
  Some (bool_decide (v ≠ None), h).

Definition delete (c : nat) (key : string) : Heap → option (bool * Heap) :=
  method c (λ _, Closure.delete key).

Definition clear (c : nat) : Heap → option (unit * Heap) :=
  method c (λ _ store, (tt, Closure.clear store)).

Definition size (c : nat) (now : Z) : Heap → option (nat * Heap) :=
  method c (λ _, Closure.size now).
End Cache.
Arguments Instance : clear implicits.
(** All the instances allocated so far. *)
Abbreviation Heap T := (list (Instance T)).
End Cache.

(** ** Traces of method calls on one cache *)

(** A call of a method, with the readings of the clock it makes. *)
Inductive Call (T : Type) : Type :=
  | CallGet (now1 now2 : Z) (key : string)
  | CallSet (now1 now2 : Z) (key : string) (v : T)
  | CallHas (now1 now2 : Z) (key : string)
  | CallDelete (key : string)
  | CallClear
  | CallSize (now : Z).
Arguments CallGet {T} _ _ _.
Arguments CallSet {T} _ _ _ _.
Arguments CallHas {T} _ _ _.
Arguments CallDelete {T} _.
Arguments CallClear {T}.
Arguments CallSize {T} _.

(** What a call returns. *)
Inductive Result (T : Type) : Type :=
  | RetValue (v : option T)
  | RetBool (b : bool)
  | RetVoid
  | RetSize (n : nat).
Arguments RetValue {T} _.
Arguments RetBool {T} _.
Arguments RetVoid {T}.
Arguments RetSize {T} _.

Section Traces.
Context {T : Type}.

(** The call [call] made on the cache [c]. *)
Definition exec (c : nat) (call : Call T) (h : Cache.Heap T)
    : option (Result T * Cache.Heap T) :=
  match call with
  | CallGet now1 now2 key =>
      prod_map RetValue id <$> Cache.get c now1 now2 key h
  | CallSet now1 now2 key v =>
      prod_map (λ _, RetVoid) id <$> Cache.set c now1 now2 key v h
  | CallHas now1 now2 key =>
      prod_map RetBool id <$> Cache.has c now1 now2 key h
  | CallDelete key =>
      prod_map RetBool id <$> Cache.delete c key h
  | CallClear =>
      prod_map (λ _, RetVoid) id <$> Cache.clear c h
  | CallSize now =>
      prod_map RetSize id <$> Cache.size c now h
  end.

(** The calls [calls] made on the cache [c] one after the other; the
    results are listed in the order of the calls. *)
Fixpoint run (c : nat) (calls : list (Call T)) (h : Cache.Heap T)
    : option (list (Result T) * Cache.Heap T) :=
  match calls with
  | [] => Some ([], h)
  | call :: calls =>
      '(r, h) ← exec c call h;
      '(rs, h) ← run c calls h;
      Some (r :: rs, h)
  end.

(** The store of the cache [c]. *)
Definition store_of (c : nat) (h : Cache.Heap T)
    : option (Closure.Store T) :=
  Cache.store <$> h !! c.

(** What a call does to the store of the cache it is made on. *)
Definition store_step (o : CacheOptions) (call : Call T)
    (store : Closure.Store T) : Closure.Store T :=
  match call with
  | CallGet now1 now2 key => (Closure.get now1 now2 key store).2
  | CallSet now1 now2 key v => Closure.set o now1 now2 key v store
  | CallHas _ _ _ => store
  | CallDelete key => (Closure.delete key store).2
  | CallClear => Closure.clear store
  | CallSize now => (Closure.size now store).2
  end.
End Traces.

(** ** Auxiliary notions for the proofs *)

Section Auxiliary.
Context {T : Type}.

(** The entries that a sweep at the instant [now] keeps. *)
Definition live (now : Z) (store : Closure.Store T)
    : Closure.Store T :=
  filter (λ p, ¬ expiresAt p.2 < now) store.

(** The keys that a sweep at the instant [now] deletes when it visits the
    entries [es]. *)
Definition expired_keys (now : Z) (es : Closure.Store T)
    : list string :=
  (filter (λ p, expiresAt p.2 < now) es).*1.

(** The calls of a trace, applied to the store of the cache. *)
Definition store_run (o : CacheOptions) (calls : list (Call T))
    (store : Closure.Store T) : Closure.Store T :=
  foldl (λ s call, store_step o call s) store calls.

(** What a call returns, from the store of the cache it is made on; [has]
    asks a cache that [createCache] has just made, whose store is empty. *)
Definition store_result (call : Call T) (store : Closure.Store T)
    : Result T :=
  match call with
  | CallGet now1 now2 key => RetValue (Closure.get now1 now2 key store).1
  | CallSet _ _ _ _ => RetVoid
  | CallHas now1 now2 key =>
      RetBool (bool_decide
        ((Closure.get (T := T) now1 now2 key JsMap.empty).1 ≠ None))
  | CallDelete key => RetBool (Closure.delete key store).1
  | CallClear => RetVoid
  | CallSize now => RetSize (Closure.size now store).1
  end.

(** The results of the calls of a trace. *)
Fixpoint store_results (o : CacheOptions) (calls : list (Call T))
    (store : Closure.Store T) : list (Result T) :=
  match calls with
  | [] => []
  | call :: calls =>
      store_result call store :: store_results o calls (store_step o call store)
  end.

(** The call writes the key [key]. *)
Definition sets_key (key : string) (call : Call T) : Prop :=
  match call with
  | CallSet _ _ k _ => k = key
  | _ => False
  end.
End Auxiliary.

(** ** Facts about [JsMap] *)

Section JsMapFacts.
Context {V : Type}.
Implicit Types (m : JsMap.t V) (k key : string) (v : V).

Lemma wf_empty : JsMap.wf (JsMap.empty (V := V)).
Proof. apply NoDup_nil_2. Qed.

Lemma keys_cons k v m : JsMap.keys ((k, v) :: m) = k :: JsMap.keys m.
Proof. reflexivity. Qed.

Lemma wf_cons k v m :
  JsMap.wf ((k, v) :: m) ↔ (k ∉ JsMap.keys m) ∧ JsMap.wf m.
Proof. unfold JsMap.wf, JsMap.keys. rewrite fmap_cons. apply NoDup_cons. Qed.

Lemma elem_of_keys k m : k ∈ JsMap.keys m ↔ ∃ v, (k, v) ∈ m.
Proof.
  unfold JsMap.keys. rewrite list_elem_of_fmap. split.
  - intros [[k' v] [-> Hin]]. by exists v.
  - intros [v Hin]. by exists (k, v).
Qed.

Lemma get_None k m : JsMap.get k m = None ↔ k ∉ JsMap.keys m.
Proof.
  induction m as [|[k' v'] m IH].
  - split; [intros _; apply not_elem_of_nil | done].
  - rewrite keys_cons, not_elem_of_cons. simpl.
    case_decide; subst; [split; [done | intros [? _]; done] |].
    rewrite IH. split; [intros Hk; split; [congruence | done] | tauto].
Qed.

Lemma get_Some_elem k v m : JsMap.get k m = Some v → (k, v) ∈ m.
Proof.
  induction m as [|[k' v'] m IH]; simpl; [done |].
  case_decide; subst.
  - intros [= ->]. apply list_elem_of_here.
  - intros H'. apply list_elem_of_further. by apply IH.
Qed.

Lemma elem_get_Some k v m : JsMap.wf m → (k, v) ∈ m → JsMap.get k m = Some v.
Proof.
  induction m as [|[k' v'] m IH]; simpl.
  - intros _ Hin. by apply elem_of_nil in Hin.
  - rewrite wf_cons. intros [Hk Hwf] Hin.
    apply elem_of_cons in Hin as [[= <- <-] | Hin].
    + by rewrite decide_True.
    + rewrite decide_False; [by apply IH |].
      intros ->. apply Hk, elem_of_keys. by exists v.
Qed.

Lemma get_filter_keep (P : string * V → Prop) `{!∀ p, Decision (P p)} k v m :
  JsMap.get k m = Some v → P (k, v) → JsMap.get k (filter P m) = Some v.
Proof.
  induction m as [|[k' v'] m IH]; [done |].
  cbn [JsMap.get]. intros Hget HP. rewrite filter_cons.
  case_decide as Hk; subst.
  - injection Hget as ->. rewrite decide_True by done.
    cbn [JsMap.get]. by rewrite decide_True.
  - destruct (decide (P (k', v'))); cbn [JsMap.get];
      [rewrite decide_False by done |]; by apply IH.
Qed.

Lemma filter_all (P : string * V → Prop) `{!∀ p, Decision (P p)} m :
  (∀ p, p ∈ m → P p) → filter P m = m.
Proof.
  induction m as [|p m IH]; [done |]. intros HP.
  rewrite filter_cons_True by (apply HP, list_elem_of_here).
  f_equal. apply IH. intros q Hq. by apply HP, list_elem_of_further.
Qed.

Lemma keys_filter_fst (Q : string → Prop) `{!∀ k, Decision (Q k)} m :
  JsMap.keys (filter (λ p, Q p.1) m) = filter Q (JsMap.keys m).
Proof.
  unfold JsMap.keys. induction m as [|[k v] m IH]; [done |].
  rewrite fmap_cons, !filter_cons. cbn [fst].
  destruct (decide (Q k)); rewrite ?fmap_cons; [f_equal |]; exact IH.
Qed.

Lemma wf_filter (P : string * V → Prop) `{!∀ p, Decision (P p)} m :
  JsMap.wf m → JsMap.wf (filter P m).
Proof.
  unfold JsMap.wf. intros Hwf. eapply sublist_NoDup; [exact Hwf |].
  apply fmap_sublist, sublist_filter.
Qed.

Lemma keys_remove k m :
  JsMap.keys (JsMap.remove k m) = filter (λ k', k' ≠ k) (JsMap.keys m).
Proof. exact (keys_filter_fst (λ k', k' ≠ k) m). Qed.

Lemma wf_remove k m : JsMap.wf m → JsMap.wf (JsMap.remove k m).
Proof. apply wf_filter. Qed.

Lemma remove_head k v m :
  JsMap.wf ((k, v) :: m) → JsMap.remove k ((k, v) :: m) = m.
Proof.
  rewrite wf_cons. intros [Hk _]. unfold JsMap.remove.
  rewrite filter_cons_False by (simpl; tauto).
  apply filter_all. intros [k' v'] Hin. simpl. intros ->.
  apply Hk, elem_of_keys. by exists v'.
Qed.

Lemma get_set_eq k v m : JsMap.get k (JsMap.set k v m) = Some v.
Proof.
  induction m as [|[k' v'] m IH]; simpl.
  - by rewrite decide_True.
  - case_decide; subst; simpl; [by rewrite decide_True |].
    by rewrite decide_False.
Qed.

Lemma keys_set k v m :
  JsMap.keys (JsMap.set k v m) =
    if decide (k ∈ JsMap.keys m) then JsMap.keys m else JsMap.keys m ++ [k].
Proof.
  induction m as [|[k' v'] m IH].
  - rewrite decide_False; [reflexivity | apply not_elem_of_nil].
  - cbn [JsMap.set]. destruct (decide (k' = k)) as [-> | Hk]; rewrite !keys_cons.
    + rewrite decide_True; [reflexivity | apply list_elem_of_here].
    + rewrite IH. destruct (decide (k ∈ JsMap.keys m)) as [Hin | Hin].
      * rewrite decide_True; [done | by apply list_elem_of_further].
      * rewrite decide_False; [done |].
        rewrite not_elem_of_cons. split; [congruence | done].
Qed.

Lemma size_keys m : JsMap.size m = length (JsMap.keys m).
Proof. unfold JsMap.size, JsMap.keys. by rewrite length_fmap. Qed.

Lemma wf_set k v m : JsMap.wf m → JsMap.wf (JsMap.set k v m).
Proof.
  intros Hwf. unfold JsMap.wf. fold (JsMap.keys (JsMap.set k v m)).
  rewrite keys_set. case_decide as Hin; [done |].
  apply NoDup_app. split_and!; [done | | apply NoDup_singleton].
  intros k' Hk' ->%list_elem_of_singleton. done.
Qed.

Lemma elem_of_set k v m p : p ∈ JsMap.set k v m → p = (k, v) ∨ p ∈ m.
Proof.
  induction m as [|[k' v'] m IH]; simpl.
  - intros ->%list_elem_of_singleton. by left.
  - case_decide; subst; rewrite !elem_of_cons; [tauto |].
    intros [-> | Hin]; [tauto | destruct (IH Hin); tauto].
Qed.

Lemma wf_functional k v v' m :
  JsMap.wf m → (k, v) ∈ m → (k, v') ∈ m → v = v'.
Proof.
  intros Hwf Hv Hv'. apply (elem_get_Some _ _ _ Hwf) in Hv, Hv'. congruence.
Qed.

Lemma filter_ext_in (P Q : string * V → Prop)
    `{!∀ p, Decision (P p)} `{!∀ p, Decision (Q p)} m :
  (∀ p, p ∈ m → P p ↔ Q p) → filter P m = filter Q m.
Proof.
  induction m as [|p m IH]; [done |]. intros Hext.
  rewrite !filter_cons.
  rewrite IH by (intros q Hq; by apply Hext, list_elem_of_further).
  pose proof (Hext p (list_elem_of_here _ _)) as Hp.
  destruct (decide (P p)), (decide (Q p)); tauto.
Qed.
End JsMapFacts.

(** ** Facts about the closure *)

Section ClosureFacts.
Context {T : Type}.
Implicit Types (store s : Closure.Store T) (key k : string) (v : T).
Implicit Types (e : CacheEntry T) (o : CacheOptions) (now : Z).

(** The loop of [evictExpired], started on any store [s] and run over the
    entries [es], leaves the bindings of [s] whose key was not deleted. *)
Lemma evictExpired_loop now es s :
  foldl (Closure.evictExpired_step now) s es =
    filter (λ p, p.1 ∉ expired_keys now es) s.
Proof.
  revert s. induction es as [|p es IH]; intros s.
  - symmetry. apply filter_all. intros q _. apply not_elem_of_nil.
  - cbn [foldl]. rewrite IH. unfold Closure.evictExpired_step, expired_keys.
    rewrite filter_cons. destruct (decide (expiresAt p.2 < now)) as [Hp | Hp].
    + cbn [JsMap.delete snd]. unfold JsMap.remove.
      rewrite list_filter_filter. apply list_filter_iff. intros q.
      rewrite fmap_cons, not_elem_of_cons. tauto.
    + done.
Qed.

Lemma evictExpired_elem now s p : p ∈ Closure.evictExpired now s → p ∈ s.
Proof.
  unfold Closure.evictExpired. rewrite evictExpired_loop, list_elem_of_filter.
  tauto.
Qed.

Lemma wf_evictExpired now s :
  JsMap.wf s → JsMap.wf (Closure.evictExpired now s).
Proof.
  unfold Closure.evictExpired. rewrite evictExpired_loop. apply wf_filter.
Qed.

Lemma size_evictExpired now s :
  (JsMap.size (Closure.evictExpired now s) ≤ JsMap.size s)%nat.
Proof.
  unfold Closure.evictExpired. rewrite evictExpired_loop. apply length_filter.
Qed.

(** On a map, the sweep is the filter that keeps the live entries. *)
Lemma evictExpired_live now s :
  JsMap.wf s → Closure.evictExpired now s = live now s.
Proof.
  intros Hwf. unfold Closure.evictExpired, live. rewrite evictExpired_loop.
  apply filter_ext_in. intros [k e] Hin. cbn [fst snd].
  unfold expired_keys. rewrite list_elem_of_fmap. split.
  - intros Hk Hlt. apply Hk. exists (k, e).
    rewrite list_elem_of_filter. done.
  - intros Hlive [[k' e'] [Heq [Hlt Hin']%list_elem_of_filter]].
    cbn [fst snd] in *. subst k'.
    by rewrite (wf_functional _ _ _ _ Hwf Hin Hin') in Hlive.
Qed.

(** A sweep that finds nothing expired leaves the store as it is. *)
Lemma evictExpired_id now s :
  (∀ p, p ∈ s → ¬ expiresAt p.2 < now) → Closure.evictExpired now s = s.
Proof.
  intros Hlive. unfold Closure.evictExpired. rewrite evictExpired_loop.
  apply filter_all. intros p _. unfold expired_keys.
  rewrite list_elem_of_fmap.
  intros [q [_ [Hlt Hq]%list_elem_of_filter]]. by apply (Hlive q).
Qed.

Lemma evictOldest_below o s :
  ¬ maxSize o ≤ Z.of_nat (JsMap.size s) → Closure.evictOldest o s = s.
Proof. intros Hlt. unfold Closure.evictOldest. by rewrite decide_False. Qed.

Lemma evictOldest_empty o : Closure.evictOldest (T := T) o [] = [].
Proof. unfold Closure.evictOldest. by case_decide. Qed.

(** At or above capacity the binding at the head of the map goes, and
    nothing else. *)
Lemma evictOldest_head o k e s :
  JsMap.wf ((k, e) :: s) →
  maxSize o ≤ Z.of_nat (JsMap.size ((k, e) :: s)) →
  Closure.evictOldest o ((k, e) :: s) = s.
Proof.
  intros Hwf Hfull. unfold Closure.evictOldest. rewrite decide_True by done.
  cbn [JsMap.first_key JsMap.keys fmap list_fmap head fst JsMap.delete snd].
  by apply remove_head.
Qed.

Lemma evictOldest_elem o s p : p ∈ Closure.evictOldest o s → p ∈ s.
Proof.
  unfold Closure.evictOldest. case_decide; [| done].
  destruct (JsMap.first_key s); [| done]. cbn [JsMap.delete snd].
  unfold JsMap.remove. rewrite list_elem_of_filter. tauto.
Qed.

Lemma wf_evictOldest o s : JsMap.wf s → JsMap.wf (Closure.evictOldest o s).
Proof.
  intros Hwf. unfold Closure.evictOldest. case_decide; [| done].
  destruct (JsMap.first_key s); [| done]. by apply wf_remove.
Qed.

Lemma wf_closure_set o now1 now2 k v s :
  JsMap.wf s → JsMap.wf (Closure.set o now1 now2 k v s).
Proof.
  intros Hwf. unfold Closure.set.
  by apply wf_set, wf_evictOldest, wf_evictExpired.
Qed.

Lemma wf_closure_get now1 now2 k s :
  JsMap.wf s → JsMap.wf (Closure.get now1 now2 k s).2.
Proof.
  intros Hwf%(wf_evictExpired now1). unfold Closure.get.
  destruct (JsMap.get k _) as [e|]; [| done].
  case_decide; [| done]. by apply wf_remove.
Qed.

Lemma wf_store_step o (call : Call T) s :
  JsMap.wf s → JsMap.wf (store_step o call s).
Proof.
  intros Hwf. destruct call; cbn [store_step].
  - by apply wf_closure_get.
  - by apply wf_closure_set.
  - done.
  - by apply wf_remove.
  - apply wf_empty.
  - by apply wf_evictExpired.
Qed.

Lemma wf_store_run o (calls : list (Call T)) s :
  JsMap.wf s → JsMap.wf (store_run o calls s).
Proof.
  revert s. induction calls as [|call calls IH]; intros s Hwf; [done |].
  apply IH. by apply wf_store_step.
Qed.

Lemma store_run_snoc o (calls : list (Call T)) call s :
  store_run o (calls ++ [call]) s = store_step o call (store_run o calls s).
Proof. unfold store_run. by rewrite foldl_app. Qed.
End ClosureFacts.

(** ** Facts about cache objects *)

Section CacheFacts.
Context {T : Type}.
Implicit Types (h : Cache.Heap T) (inst : Cache.Instance T) (c : nat).
Implicit Types (key : string) (call : Call T) (o : CacheOptions).

Lemma method_Some {A : Type} c
    (body : CacheOptions → Closure.Store T → A * Closure.Store T) h inst :
  h !! c = Some inst →
  Cache.method c body h =
    Some ((body (Cache.options inst) (Cache.store inst)).1,
          <[c := Cache.mkInstance (Cache.options inst)
                   (body (Cache.options inst) (Cache.store inst)).2]> h).
Proof.
  intros Hc. unfold Cache.method. rewrite Hc. cbn [mbind option_bind].
  by destruct (body _ _).
Qed.

(** The cache that [createCache] returns is new and its store is empty. *)
Lemma createCache_fresh o h :
  (Cache.createCache o h).2 !! (Cache.createCache o h).1 =
    Some (Cache.mkInstance o JsMap.empty).
Proof.
  cbn [Cache.createCache fst snd].
  rewrite lookup_app_r, Nat.sub_diag by done. done.
Qed.

(** [has] answers from the empty store of the cache it creates, and leaves
    that cache behind. *)
Lemma has_eq c now1 now2 key h inst :
  h !! c = Some inst →
  Cache.has c now1 now2 key h =
    Some (false, h ++ [Cache.mkInstance (Cache.options inst) JsMap.empty]).
Proof.
  intros Hc. unfold Cache.has. rewrite Hc. cbn [mbind option_bind].
  cbn [Cache.createCache]. unfold Cache.get.
  erewrite method_Some by apply (createCache_fresh (Cache.options inst) h).
  cbn. f_equal. f_equal.
  apply list_insert_id, (createCache_fresh (Cache.options inst) h).
Qed.

(** A call on a cache of the heap returns, with the result and the store
    that the closure computes. *)
Lemma exec_eq c call h inst :
  h !! c = Some inst →
  ∃ h', exec c call h = Some (store_result call (Cache.store inst), h') ∧
    h' !! c = Some (Cache.mkInstance (Cache.options inst)
                      (store_step (Cache.options inst) call (Cache.store inst))).
Proof.
  intros Hc. pose proof (lookup_lt_Some _ _ _ Hc) as Hlt.
  destruct call; cbn [exec store_result store_step];
    unfold Cache.get, Cache.set, Cache.delete, Cache.clear, Cache.size;
    try (erewrite method_Some by exact Hc; cbn [fmap option_fmap option_map
           prod_map fst snd id]; eexists; split; [reflexivity |];
         by apply list_lookup_insert_eq).
  rewrite (has_eq _ _ _ _ _ _ Hc). eexists. split; [reflexivity |].
  destruct inst. by apply lookup_app_l_Some.
Qed.

Lemma run_eq c (calls : list (Call T)) h inst :
  h !! c = Some inst →
  ∃ h', run c calls h =
      Some (store_results (Cache.options inst) calls (Cache.store inst), h') ∧
    h' !! c = Some (Cache.mkInstance (Cache.options inst)
                      (store_run (Cache.options inst) calls (Cache.store inst))).
Proof.
  revert h inst. induction calls as [|call calls IH]; intros h inst Hc.
  - exists h. split; [done |]. by destruct inst.
  - destruct (exec_eq c call h inst Hc) as (h1 & Hexec & Hc1).
    destruct (IH h1 _ Hc1) as (h2 & Hrun & Hc2).
    exists h2. cbn [run]. rewrite Hexec. cbn [mbind option_bind].
    rewrite Hrun. done.
Qed.
End CacheFacts.

(** ** Reads *)

Section Reads.
Context {T : Type}.
Implicit Types (s : Closure.Store T) (key k : string) (v : T).
Implicit Types (e : CacheEntry T) (o : CacheOptions).

(** A read of an entry that neither reading of the clock finds expired
    returns its value. *)
Lemma closure_get_live r1 r2 key s e :
  JsMap.wf s → JsMap.get key s = Some e →
  ¬ expiresAt e < r1 → ¬ expiresAt e < r2 →
  (Closure.get r1 r2 key s).1 = Some (value e).
Proof.
  intros Hwf Hget H1 H2. unfold Closure.get.
  rewrite evictExpired_live by done. unfold live.
  rewrite (get_filter_keep _ _ _ _ Hget) by done.
  by rewrite decide_False.
Qed.

(** A read returns nothing when every entry of the key is expired at one of
    the two readings of the clock. *)
Lemma closure_get_expired r1 r2 key s :
  JsMap.wf s →
  (∀ e, (key, e) ∈ s → expiresAt e < r1 ∨ expiresAt e < r2) →
  (Closure.get r1 r2 key s).1 = None.
Proof.
  intros Hwf Hexp. unfold Closure.get.
  destruct (JsMap.get key _) as [e|] eqn:Hget; [| done].
  apply get_Some_elem in Hget. rewrite evictExpired_live in Hget by done.
  apply list_elem_of_filter in Hget as [Hlive Hin]. cbn [snd] in Hlive.
  destruct (Hexp e Hin) as [Hlt | Hlt]; [done |].
  by rewrite decide_True.
Qed.

(** A read of a key that the store does not hold returns nothing. *)
Lemma closure_get_absent r1 r2 key s :
  key ∉ JsMap.keys s → (Closure.get r1 r2 key s).1 = None.
Proof.
  intros Hkey. unfold Closure.get.
  destruct (JsMap.get key _) as [e|] eqn:Hget; [| done].
  apply get_Some_elem, evictExpired_elem in Hget.
  destruct Hkey. apply elem_of_keys. by exists e.
Qed.

Lemma get_closure_set o w1 w2 key v s :
  JsMap.get key (Closure.set o w1 w2 key v s) = Some (mkEntry v (w2 + ttl o)).
Proof. apply get_set_eq. Qed.

(** C1. For every key and value, in a cache whose [ttl] is positive, the
    [get(key)] that follows [set(key, value)] before [ttl] milliseconds
    have elapsed returns [value]. The eviction of [set] precedes the
    insertion, so it never removes the entry that this [set] writes. *)
Theorem get_after_set o s key v w1 w2 r1 r2 :
  JsMap.wf s →
  0 < ttl o →
  w2 ≤ r1 → r1 ≤ r2 → r2 - w2 < ttl o →
  (Closure.get r1 r2 key (Closure.set o w1 w2 key v s)).1 = Some v.
Proof.
  intros Hwf Httl Hs Hg Hfresh.
  rewrite (closure_get_live r1 r2 key _ (mkEntry v (w2 + ttl o)));
    [done | by apply wf_closure_set | apply get_closure_set | | ];
    cbn [expiresAt]; lia.
Qed.

(** C8. [delete(key)] returns [true] exactly when the store held an entry
    for [key], whether or not that entry had expired, and the [get(key)]
    that follows returns nothing. *)
Theorem delete_reports_presence s key :
  ((Closure.delete key s).1 = true ↔ ∃ e, (key, e) ∈ s) ∧
  ((Closure.delete key s).1 = false ↔ ∀ e, (key, e) ∉ s) ∧
  (∀ e now, (key, e) ∈ s → expiresAt e < now →
     (Closure.delete key s).1 = true) ∧
  (∀ r1 r2, (Closure.get r1 r2 key (Closure.delete key s).2).1 = None).
Proof.
  assert (Hpresent : (Closure.delete key s).1 = true ↔ ∃ e, (key, e) ∈ s).
  { cbn [Closure.delete JsMap.delete fst]. unfold JsMap.has.
    by rewrite bool_decide_eq_true, elem_of_keys. }
  split_and!.
  - done.
  - rewrite <- not_true_iff_false, Hpresent. split.
    + intros Hnone e He. apply Hnone. by exists e.
    + intros Hnone [e He]. by apply (Hnone e).
  - intros e now He _. apply Hpresent. by exists e.
  - intros r1 r2. apply closure_get_absent.
    cbn [Closure.delete JsMap.delete snd].
    rewrite keys_remove, list_elem_of_filter. tauto.
Qed.
End Reads.

(** ** [has] *)

Section Has.
Context {T : Type}.
Implicit Types (h : Cache.Heap T) (inst : Cache.Instance T) (c : nat).

(** C10. [has(key)] leaves the store of the cache it is called on as it
    was, entry for entry and in the same order: it sweeps and deletes
    nothing there, and the other caches of the heap are untouched too. *)
Theorem has_leaves_store c now1 now2 key h inst :
  h !! c = Some inst →
  ∃ r h', Cache.has c now1 now2 key h = Some (r, h') ∧
    h' !! c = Some inst ∧
    store_of c h' = store_of c h ∧
    (∀ c' inst', h !! c' = Some inst' → h' !! c' = Some inst').
Proof.
  intros Hc. rewrite (has_eq _ _ _ _ _ _ Hc). eexists _, _.
  split; [reflexivity |]. split_and!.
  - by apply lookup_app_l_Some.
  - unfold store_of. by rewrite (lookup_app_l_Some _ _ _ _ Hc), Hc.
  - intros c' inst' Hc'. by apply lookup_app_l_Some.
Qed.

(** [has] returns [false] whatever the store of its cache holds. *)
Lemma has_false c now1 now2 key h inst :
  h !! c = Some inst →
  fst <$> Cache.has c now1 now2 key h = Some false.
Proof. intros Hc. by rewrite (has_eq _ _ _ _ _ _ Hc). Qed.
End Has.

(** C5. On a cache that holds the key ["a"], written at the instant of the
    calls, [has("a")] returns [false] although [get("a")] returns the
    stored value: [has] asks a cache it has just created, not its own. *)
Theorem has_misses_stored_key :
  let '(c, h) := Cache.createCache (mkOptions 1000 10) [] in
  fst <$> run c [CallSet 0 0 "a" 1; CallHas 0 0 "a"; CallGet 0 0 "a"] h =
    Some [RetVoid; RetBool false; RetValue (Some 1)].
Proof. vm_compute. reflexivity. Qed.

(** ** Expiry *)

Section Expiry.
Context {T : Type}.
Implicit Types (s : Closure.Store T) (key k : string) (v : T).
Implicit Types (e : CacheEntry T) (o : CacheOptions) (call : Call T).

(** A call that does not write [key] brings no new entry for it. *)
Lemma store_step_key_elem o call key e s :
  ¬ sets_key key call →
  (key, e) ∈ store_step o call s → (key, e) ∈ s.
Proof.
  intros Hcall. destruct call as [r1 r2 k|w1 w2 k v|r1 r2 k|k| |now];
    cbn [store_step sets_key] in *.
  - unfold Closure.get. destruct (JsMap.get k _) as [e'|].
    + case_decide; cbn [snd JsMap.delete]; [unfold JsMap.remove;
        rewrite list_elem_of_filter; intros [_ Hin] | intros Hin];
        by apply evictExpired_elem in Hin.
    + apply evictExpired_elem.
  - unfold Closure.set. intros [[= ? _] | Hin]%elem_of_set; [done |].
    by apply evictOldest_elem, evictExpired_elem in Hin.
  - done.
  - cbn [Closure.delete JsMap.delete snd]. unfold JsMap.remove.
    rewrite list_elem_of_filter. tauto.
  - intros Hin. by apply elem_of_nil in Hin.
  - apply evictExpired_elem.
Qed.

Lemma store_run_key_elem o (calls : list (Call T)) key e s :
  Forall (λ call, ¬ sets_key key call) calls →
  (key, e) ∈ store_run o calls s → (key, e) ∈ s.
Proof.
  intros Hcalls. revert s.
  induction Hcalls as [|call calls Hcall _ IH]; intros s; [done |].
  intros Hin. apply IH in Hin. by apply store_step_key_elem in Hin.
Qed.

(** C2, as the code has it. Once more than [ttl] milliseconds have elapsed
    since the most recent [set(key, ...)], that is, once a reading of the
    clock made by [get] is strictly later than the instant of the write plus
    [ttl], [get(key)] returns nothing, whatever calls that do not write
    [key] came in between. With [ttl = 0] this is every read at an instant
    strictly later than the insertion. *)
Theorem get_after_expiry o s key v w1 w2 (mid : list (Call T)) r1 r2 :
  JsMap.wf s →
  Forall (λ call, ¬ sets_key key call) mid →
  let s' := store_run o mid (Closure.set o w1 w2 key v s) in
  (w2 + ttl o < r1 ∨ w2 + ttl o < r2 → (Closure.get r1 r2 key s').1 = None) ∧
  (ttl o = 0 → w2 < r1 ∨ w2 < r2 → (Closure.get r1 r2 key s').1 = None).
Proof.
  intros Hwf Hmid s'.
  assert (Hlate : w2 + ttl o < r1 ∨ w2 + ttl o < r2 →
                  (Closure.get r1 r2 key s').1 = None).
  { intros Hlate. apply closure_get_expired.
    - by apply wf_store_run, wf_closure_set.
    - intros e He. apply (store_run_key_elem _ _ _ _ _ Hmid) in He.
      pose proof (get_Some_elem _ _ _ (get_closure_set o w1 w2 key v s)) as Hnew.
      rewrite (wf_functional _ _ _ _ (wf_closure_set o w1 w2 key v s Hwf) He Hnew).
      done. }
  split; [done |]. intros Hzero Hr. apply Hlate. lia.
Qed.
End Expiry.

(** C2, as stated, fails at the boundary: with [ttl = 5], an entry written at
    the instant 0 is still returned by a read at the instant 5, when exactly
    [ttl] milliseconds have elapsed, because [5 < 5] does not hold. *)
Lemma get_at_expiry_instant :
  ¬ (∀ (o : CacheOptions) (s : Closure.Store Z) (key : string) (v : Z)
       (w1 w2 r1 r2 : Z),
       JsMap.wf s → w1 ≤ w2 → w2 + ttl o ≤ r1 → r1 ≤ r2 →
       (Closure.get r1 r2 key (Closure.set o w1 w2 key v s)).1 = None).
Proof.
  intros Hclaim.
  assert (Hget := Hclaim (mkOptions 5 10) [] "a" 1 0 0 5 5 wf_empty
                    ltac:(done) ltac:(done) ltac:(done)).
  vm_compute in Hget. discriminate Hget.
Qed.

(** ** Capacity *)

Section Capacity.
Context {T : Type}.
Implicit Types (s : Closure.Store T) (key k : string) (v : T).
Implicit Types (e : CacheEntry T) (o : CacheOptions) (call : Call T).

Lemma size_set_le k e s : (JsMap.size (JsMap.set k e s) ≤ S (JsMap.size s))%nat.
Proof.
  rewrite !size_keys, keys_set. case_decide; [lia |].
  rewrite length_app. cbn [length]. lia.
Qed.

(** After the sweep and the eviction of a [set], a store that was within a
    positive capacity has room for one entry. *)
Lemma evictOldest_room o s :
  0 < maxSize o → JsMap.wf s →
  Z.of_nat (JsMap.size s) ≤ maxSize o →
  Z.of_nat (JsMap.size (Closure.evictOldest o s)) < maxSize o.
Proof.
  intros Hpos Hwf Hle.
  destruct (decide (maxSize o ≤ Z.of_nat (JsMap.size s))) as [Hfull | Hroom].
  - destruct s as [|[k e] s]; [cbn in Hfull; lia |].
    rewrite evictOldest_head by done.
    unfold JsMap.size in *. cbn [length] in *. lia.
  - rewrite evictOldest_below by done. lia.
Qed.

(** The store of a cache of positive capacity never exceeds it. *)
Lemma store_step_bounded o call s :
  0 < maxSize o → JsMap.wf s →
  Z.of_nat (JsMap.size s) ≤ maxSize o →
  Z.of_nat (JsMap.size (store_step o call s)) ≤ maxSize o.
Proof.
  intros Hpos Hwf Hle.
  pose proof (size_evictExpired (T := T)) as Hsweep.
  destruct call as [r1 r2 k|w1 w2 k v|r1 r2 k|k| |now]; cbn [store_step].
  - unfold Closure.get. specialize (Hsweep r1 s).
    destruct (JsMap.get k _) as [e|]; [| cbn [snd]; lia].
    case_decide; cbn [snd JsMap.delete]; [| lia].
    pose proof (length_filter (λ p, p.1 ≠ k) (Closure.evictExpired r1 s)).
    unfold JsMap.remove, JsMap.size in *. lia.
  - unfold Closure.set. specialize (Hsweep w1 s).
    pose proof (evictOldest_room o (Closure.evictExpired w1 s) Hpos
                  (wf_evictExpired _ _ Hwf) ltac:(lia)) as Hroom.
    pose proof (size_set_le k (mkEntry v (w2 + ttl o))
                  (Closure.evictOldest o (Closure.evictExpired w1 s))).
    lia.
  - done.
  - cbn [Closure.delete JsMap.delete snd].
    pose proof (length_filter (λ p, p.1 ≠ k) s).
    unfold JsMap.remove, JsMap.size in *. lia.
  - cbn. lia.
  - unfold Closure.size. cbn [snd]. specialize (Hsweep now s). lia.
Qed.

Lemma store_run_bounded o (calls : list (Call T)) s :
  0 < maxSize o → JsMap.wf s →
  Z.of_nat (JsMap.size s) ≤ maxSize o →
  Z.of_nat (JsMap.size (store_run o calls s)) ≤ maxSize o.
Proof.
  intros Hpos. revert s.
  induction calls as [|call calls IH]; intros s Hwf Hle; [done |].
  apply IH; [by apply wf_store_step | by apply store_step_bounded].
Qed.

(** C3. In a cache created with a positive [maxSize], after any sequence of
    calls, the store holds at most [maxSize] entries when a [set] returns,
    and so does the count that [size()] then reports. *)
Theorem size_bounded_after_set o h (calls : list (Call T)) w1 w2 key v :
  0 < maxSize o →
  ∃ rs h' s,
    run (Cache.createCache o h).1 (calls ++ [CallSet w1 w2 key v])
        (Cache.createCache o h).2 = Some (rs, h') ∧
    store_of (Cache.createCache o h).1 h' = Some s ∧
    Z.of_nat (JsMap.size s) ≤ maxSize o ∧
    ∀ now, Z.of_nat (Closure.size now s).1 ≤ maxSize o.
Proof.
  intros Hpos.
  destruct (run_eq _ (calls ++ [CallSet w1 w2 key v]) _ _
              (createCache_fresh o h)) as (h' & Hrun & Hc).
  cbn [Cache.options Cache.store] in *.
  assert (Hle : Z.of_nat (JsMap.size (store_run o
                  (calls ++ [CallSet w1 w2 key v]) JsMap.empty)) ≤ maxSize o).
  { apply store_run_bounded; [done | apply wf_empty | cbn; lia]. }
  eexists _, h', (store_run o (calls ++ [CallSet w1 w2 key v]) JsMap.empty).
  split_and!.
  - exact Hrun.
  - unfold store_of. by rewrite Hc.
  - exact Hle.
  - intros now. unfold Closure.size. cbn [fst].
    pose proof (size_evictExpired now (store_run o
                  (calls ++ [CallSet w1 w2 key v]) JsMap.empty)). lia.
Qed.

(** With [maxSize ≤ 0] the eviction of a [set] empties a store of at most
    one entry. *)
Lemma evictOldest_degenerate o s :
  maxSize o ≤ 0 → JsMap.wf s → (JsMap.size s ≤ 1)%nat →
  Closure.evictOldest o s = [].
Proof.
  intros Hneg Hwf Hle. destruct s as [|[k e] s]; [apply evictOldest_empty |].
  rewrite evictOldest_head; [| done | unfold JsMap.size; cbn [length]; lia].
  destruct s; [done | cbn in Hle; lia].
Qed.

Lemma store_step_degenerate o call s :
  maxSize o ≤ 0 → JsMap.wf s → (JsMap.size s ≤ 1)%nat →
  (JsMap.size (store_step o call s) ≤ 1)%nat.
Proof.
  intros Hneg Hwf Hle.
  pose proof (size_evictExpired (T := T)) as Hsweep.
  destruct call as [r1 r2 k|w1 w2 k v|r1 r2 k|k| |now]; cbn [store_step].
  - unfold Closure.get. specialize (Hsweep r1 s).
    destruct (JsMap.get k _) as [e|]; [| cbn [snd]; lia].
    case_decide; cbn [snd JsMap.delete]; [| lia].
    pose proof (length_filter (λ p, p.1 ≠ k) (Closure.evictExpired r1 s)).
    unfold JsMap.remove, JsMap.size in *. lia.
  - unfold Closure.set. specialize (Hsweep w1 s).
    rewrite evictOldest_degenerate; [done | done | | lia].
    by apply wf_evictExpired.
  - done.
  - cbn [Closure.delete JsMap.delete snd].
    pose proof (length_filter (λ p, p.1 ≠ k) s).
    unfold JsMap.remove, JsMap.size in *. lia.
  - cbn. lia.
  - unfold Closure.size. cbn [snd]. specialize (Hsweep now s). lia.
Qed.

Lemma store_run_degenerate o (calls : list (Call T)) s :
  maxSize o ≤ 0 → JsMap.wf s → (JsMap.size s ≤ 1)%nat →
  (JsMap.size (store_run o calls s) ≤ 1)%nat.
Proof.
  intros Hneg. revert s.
  induction calls as [|call calls IH]; intros s Hwf Hle; [done |].
  apply IH; [by apply wf_store_step | by apply store_step_degenerate].
Qed.

(** C7, as the code has it. In a cache created with [maxSize ≤ 0], after
    any sequence of calls, the store holds exactly one entry when a [set]
    returns: the entry that this [set] has just written. The [set] evicts
    the entry of the [set] before it, if it is still there, and keeps its
    own. *)
Theorem degenerate_capacity_keeps_last o h (calls : list (Call T)) w1 w2 key v :
  maxSize o ≤ 0 →
  ∃ rs h',
    run (Cache.createCache o h).1 (calls ++ [CallSet w1 w2 key v])
        (Cache.createCache o h).2 = Some (rs, h') ∧
    store_of (Cache.createCache o h).1 h' =
      Some [(key, mkEntry v (w2 + ttl o))].
Proof.
  intros Hneg.
  destruct (run_eq _ (calls ++ [CallSet w1 w2 key v]) _ _
              (createCache_fresh o h)) as (h' & Hrun & Hc).
  cbn [Cache.options Cache.store] in *.
  eexists _, h'. split; [exact Hrun |].
  unfold store_of. rewrite Hc. cbn [fmap option_fmap option_map Cache.store].
  f_equal. rewrite store_run_snoc. cbn [store_step]. unfold Closure.set.
  rewrite evictOldest_degenerate; [done | done | |].
  - by apply wf_evictExpired, wf_store_run, wf_empty.
  - etrans; [apply size_evictExpired |].
    apply store_run_degenerate; [done | apply wf_empty | cbn; lia].
Qed.
End Capacity.

(** C7, as stated, fails: with [maxSize = 0] the entry that a [set] writes
    into a new cache is in the store when the [set] returns, and the [get]
    that follows returns its value. *)
Lemma degenerate_capacity_retains :
  ¬ (∀ (o : CacheOptions) (calls : list (Call Z)) (w1 w2 : Z) (key : string)
       (v : Z) (r1 r2 : Z) (key' : string),
       maxSize o ≤ 0 →
       let s := store_run o (calls ++ [CallSet w1 w2 key v]) JsMap.empty in
       JsMap.size s = 0%nat ∧ (Closure.get r1 r2 key' s).1 = None).
Proof.
  intros Hclaim.
  assert (Hget := Hclaim (mkOptions 1000 0) [] 0 0 "a" 1 0 0 "a" ltac:(done)).
  vm_compute in Hget. destruct Hget as [Hsize _]. discriminate Hsize.
Qed.

(** ** Eviction order *)

Section EvictionOrder.
Context {T : Type}.
Implicit Types (s : Closure.Store T) (key k : string) (v : T).
Implicit Types (e : CacheEntry T) (o : CacheOptions).

(** C6, as the code has it. [set(k, v)] on a key that is still in the store
    once the sweep and the eviction of that call are done replaces the entry
    where it stands: the keys, and so the order of eviction, stay as they
    were. In particular, when nothing has expired and the store is below
    capacity, the keys are those of the store before the call, in the same
    order. The key becomes the newest only when that sweep or that eviction
    has removed it, and the entry is then appended. *)
Theorem set_keeps_position o s k v w1 w2 :
  let s' := Closure.evictOldest o (Closure.evictExpired w1 s) in
  (k ∈ JsMap.keys s' →
     JsMap.keys (Closure.set o w1 w2 k v s) = JsMap.keys s') ∧
  (k ∉ JsMap.keys s' →
     JsMap.keys (Closure.set o w1 w2 k v s) = JsMap.keys s' ++ [k]) ∧
  ((∀ p, p ∈ s → ¬ expiresAt p.2 < w1) →
   Z.of_nat (JsMap.size s) < maxSize o →
   k ∈ JsMap.keys s →
     JsMap.keys (Closure.set o w1 w2 k v s) = JsMap.keys s) ∧
  JsMap.get k (Closure.set o w1 w2 k v s) = Some (mkEntry v (w2 + ttl o)).
Proof.
  intros s'. split_and!.
  - intros Hk. unfold Closure.set. by rewrite keys_set, decide_True.
  - intros Hk. unfold Closure.set. by rewrite keys_set, decide_False.
  - intros Hlive Hroom Hk. unfold Closure.set.
    rewrite evictExpired_id, evictOldest_below by (done || lia).
    by rewrite keys_set, decide_True.
  - apply get_closure_set.
Qed.

(** C9. When the store holds [k] and exactly [maxSize ≥ 1] entries after the
    sweep, [set(k, v)] still evicts the oldest of them and then writes [k]
    into what is left. If the oldest key is not [k], it is gone after the
    call, [k] holds the new entry, and the store ends with [maxSize - 1]
    entries. *)
Theorem set_existing_at_capacity o s k v w1 w2 :
  JsMap.wf s →
  1 ≤ maxSize o →
  k ∈ JsMap.keys (Closure.evictExpired w1 s) →
  Z.of_nat (JsMap.size (Closure.evictExpired w1 s)) = maxSize o →
  ∃ oldest e rest,
    Closure.evictExpired w1 s = (oldest, e) :: rest ∧
    Closure.set o w1 w2 k v s = JsMap.set k (mkEntry v (w2 + ttl o)) rest ∧
    (oldest ≠ k →
       JsMap.get oldest (Closure.set o w1 w2 k v s) = None ∧
       JsMap.get k (Closure.set o w1 w2 k v s) = Some (mkEntry v (w2 + ttl o)) ∧
       Z.of_nat (JsMap.size (Closure.set o w1 w2 k v s)) = maxSize o - 1).
Proof.
  intros Hwf%(wf_evictExpired w1) Hpos Hk Hfull. unfold Closure.set.
  destruct (Closure.evictExpired w1 s) as [|[oldest e] rest];
    [cbn in Hfull; lia |].
  exists oldest, e, rest.
  rewrite evictOldest_head by (done || lia).
  split_and!; [done | done |]. intros Hne.
  apply wf_cons in Hwf as [Hold Hwf].
  rewrite keys_cons, elem_of_cons in Hk. destruct Hk as [-> | Hk]; [done |].
  split_and!.
  - apply get_None. rewrite keys_set, decide_True by done. done.
  - apply get_set_eq.
  - rewrite size_keys, keys_set, decide_True, <- size_keys by done.
    unfold JsMap.size in *. cbn [length] in Hfull. lia.
Qed.
End EvictionOrder.

(** C6, as stated, fails: in a cache of capacity 3 that holds ["a"] and
    ["b"], in this order, [set("a", 7)] leaves ["a"] the oldest key, so the
    newest key is still ["b"]. *)
Lemma set_existing_not_newest :
  ¬ (∀ (o : CacheOptions) (s : Closure.Store Z) (k : string) (v : Z)
       (w1 w2 : Z),
       JsMap.wf s → k ∈ JsMap.keys s →
       last (JsMap.keys (Closure.set o w1 w2 k v s)) = Some k).
Proof.
  intros Hclaim.
  assert (Hwf : JsMap.wf [("a", mkEntry 1 1000); ("b", mkEntry 2 1000)]).
  { apply wf_cons. split; [| apply NoDup_singleton].
    by intros [= ]%list_elem_of_singleton. }
  assert (Hlast := Hclaim (mkOptions 1000 3) _ "a" 7 0 0 Hwf
                     (list_elem_of_here _ _)).
  vm_compute in Hlast. discriminate Hlast.
Qed.

(** C4. With [maxSize = 2] and all the readings of the clock within [ttl]
    milliseconds of one another, so that nothing expires, [set("a", 1)],
    [set("b", 2)], [set("c", 3)] on a new cache evict ["a"], the key that
    was inserted first: the three reads that follow return nothing for
    ["a"], 2 for ["b"] and 3 for ["c"]. *)
Theorem eviction_order (h : Cache.Heap Z) (ttl0 lo : Z)
    (a1 a2 b1 b2 c1 c2 ra1 ra2 rb1 rb2 rc1 rc2 : Z) :
  (∀ t, t ∈ [a1; a2; b1; b2; c1; c2; ra1; ra2; rb1; rb2; rc1; rc2] →
        lo ≤ t ≤ lo + ttl0) →
  fst <$> run (Cache.createCache (mkOptions ttl0 2) h).1
            [CallSet a1 a2 "a" 1; CallSet b1 b2 "b" 2; CallSet c1 c2 "c" 3;
             CallGet ra1 ra2 "a"; CallGet rb1 rb2 "b"; CallGet rc1 rc2 "c"]
            (Cache.createCache (mkOptions ttl0 2) h).2 =
    Some [RetVoid; RetVoid; RetVoid;
          RetValue None; RetValue (Some 2); RetValue (Some 3)].
Proof.
  intros Hwin.
  assert (Hts : Forall (λ t, lo ≤ t ≤ lo + ttl0)
            [a1; a2; b1; b2; c1; c2; ra1; ra2; rb1; rb2; rc1; rc2])
    by by apply Forall_forall.
  repeat (apply Forall_cons in Hts as [? Hts]). clear Hwin Hts.
  destruct (run_eq _ [CallSet a1 a2 "a" 1; CallSet b1 b2 "b" 2;
                      CallSet c1 c2 "c" 3; CallGet ra1 ra2 "a";
                      CallGet rb1 rb2 "b"; CallGet rc1 rc2 "c"] _ _
              (createCache_fresh (mkOptions ttl0 2) h)) as (h' & -> & _).
  cbn [fmap option_fmap option_map fst Cache.options Cache.store]. f_equal.
  set (ea := mkEntry 1 (a2 + ttl0)).
  set (eb := mkEntry 2 (b2 + ttl0)).
  set (ec := mkEntry 3 (c2 + ttl0)).
  assert (Hlive : ∀ now (s : Closure.Store Z),
            lo ≤ now ≤ lo + ttl0 → s ⊆ [("a", ea); ("b", eb); ("c", ec)] →
            Closure.evictExpired now s = s).
  { intros now s Hnow Hsub. apply evictExpired_id. intros p Hp%Hsub.
    rewrite !elem_of_cons, elem_of_nil in Hp.
    destruct Hp as [-> | [-> | [-> | []]]]; cbn [snd expiresAt ea eb ec]; lia. }
  assert (Hset_a : Closure.set (mkOptions ttl0 2) a1 a2 "a" 1 JsMap.empty =
                   [("a", ea)]) by reflexivity.
  assert (Hset_b : Closure.set (mkOptions ttl0 2) b1 b2 "b" 2 [("a", ea)] =
                   [("a", ea); ("b", eb)]).
  { unfold Closure.set. rewrite Hlive; [reflexivity | done |].
    intros p. rewrite !elem_of_cons. tauto. }
  assert (Hset_c : Closure.set (mkOptions ttl0 2) c1 c2 "c" 3
                     [("a", ea); ("b", eb)] = [("b", eb); ("c", ec)]).
  { unfold Closure.set. rewrite Hlive; [reflexivity | done |].
    intros p. rewrite !elem_of_cons. tauto. }
  assert (Hget : ∀ r1 r2 key, lo ≤ r1 ≤ lo + ttl0 → lo ≤ r2 ≤ lo + ttl0 →
            Closure.get r1 r2 key [("b", eb); ("c", ec)] =
              (value <$> JsMap.get key [("b", eb); ("c", ec)],
               [("b", eb); ("c", ec)])).
  { intros r1 r2 key Hr1 Hr2. unfold Closure.get.
    rewrite Hlive; [| done | intros p; rewrite !elem_of_cons; tauto].
    destruct (JsMap.get key _) as [e|] eqn:Hkey; [| done].
    apply get_Some_elem in Hkey. rewrite !elem_of_cons, elem_of_nil in Hkey.
    rewrite decide_False; [done |].
    destruct Hkey as [[= _ ->] | [[= _ ->] | []]]; cbn [expiresAt eb ec]; lia. }
  cbn [store_results store_result store_step].
  rewrite Hset_a, Hset_b, Hset_c.
  repeat (rewrite Hget by done; cbn [fst snd]). reflexivity.
Qed.

(** ** The theorems at concrete caches *)

(** C1 on a full cache of capacity 2 whose oldest key is the one written. *)
Lemma get_after_set_witness :
  JsMap.wf [("a", mkEntry 0 50); ("b", mkEntry 2 50)] ∧
  0 < ttl (mkOptions 100 2) ∧ 10 ≤ 20 ∧ 20 ≤ 30 ∧
  30 - 10 < ttl (mkOptions 100 2) ∧
  (Closure.get 20 30 "a"
     (Closure.set (mkOptions 100 2) 10 10 "a" 1
        [("a", mkEntry 0 50); ("b", mkEntry 2 50)])).1 = Some 1.
Proof.
  assert (Hwf : JsMap.wf [("a", mkEntry 0 50); ("b", mkEntry 2 50)])
    by (unfold JsMap.wf; cbn; compute_done).
  split_and!; [exact Hwf | reflexivity | discriminate | discriminate
              | reflexivity |].
  apply (get_after_set (mkOptions 100 2) _ "a" 1 10 10 20 30 Hwf);
    cbn; lia.
Defined.

(** C2 with [ttl = 5]: a write at the instant 0, two calls on other
    matters, and a read at the instant 6. *)
Lemma get_after_expiry_witness :
  JsMap.wf (JsMap.empty (V := CacheEntry Z)) ∧
  Forall (λ call, ¬ sets_key "a" call) [CallSet 1 1 "b" 2; CallGet 2 2 "a"] ∧
  (0 + ttl (mkOptions 5 10) < 6 ∨ 0 + ttl (mkOptions 5 10) < 6) ∧
  (Closure.get 6 6 "a"
     (store_run (mkOptions 5 10) [CallSet 1 1 "b" 2; CallGet 2 2 "a"]
        (Closure.set (mkOptions 5 10) 0 0 "a" 1 JsMap.empty))).1 = None.
Proof.
  assert (Hmid : Forall (λ call : Call Z, ¬ sets_key "a" call)
                   [CallSet 1 1 "b" 2; CallGet 2 2 "a"]).
  { repeat constructor; cbn; [discriminate | tauto]. }
  assert (Hlate : 0 + ttl (mkOptions 5 10) < 6 ∨ 0 + ttl (mkOptions 5 10) < 6)
    by (left; reflexivity).
  split_and!; [apply wf_empty | exact Hmid | exact Hlate |].
  exact (proj1 (get_after_expiry (mkOptions 5 10) JsMap.empty "a" 1 0 0
                  [CallSet 1 1 "b" 2; CallGet 2 2 "a"] 6 6 wf_empty Hmid)
           Hlate).
Defined.

(** C3 with [maxSize = 2] and a third key. *)
Lemma size_bounded_after_set_witness :
  0 < maxSize (mkOptions 1000 2) ∧
  ∃ rs h' s,
    run (Cache.createCache (T := Z) (mkOptions 1000 2) []).1
        ([CallSet 0 0 "a" 1; CallSet 0 0 "b" 2] ++ [CallSet 0 0 "c" 3])
        (Cache.createCache (T := Z) (mkOptions 1000 2) []).2 = Some (rs, h') ∧
    store_of (Cache.createCache (T := Z) (mkOptions 1000 2) []).1 h' = Some s ∧
    Z.of_nat (JsMap.size s) ≤ maxSize (mkOptions 1000 2) ∧
    ∀ now, Z.of_nat (Closure.size now s).1 ≤ maxSize (mkOptions 1000 2).
Proof.
  split; [reflexivity |].
  apply (size_bounded_after_set (mkOptions 1000 2) []
           [CallSet 0 0 "a" 1; CallSet 0 0 "b" 2] 0 0 "c" 3).
  reflexivity.
Defined.

(** C4 with every reading of the clock at the instant 0. *)
Lemma eviction_order_witness :
  (∀ t, t ∈ [0; 0; 0; 0; 0; 0; 0; 0; 0; 0; 0; 0] → 0 ≤ t ≤ 0 + 1000) ∧
  fst <$> run (Cache.createCache (T := Z) (mkOptions 1000 2) []).1
            [CallSet 0 0 "a" 1; CallSet 0 0 "b" 2; CallSet 0 0 "c" 3;
             CallGet 0 0 "a"; CallGet 0 0 "b"; CallGet 0 0 "c"]
            (Cache.createCache (T := Z) (mkOptions 1000 2) []).2 =
    Some [RetVoid; RetVoid; RetVoid;
          RetValue None; RetValue (Some 2); RetValue (Some 3)].
Proof.
  assert (Hwin : ∀ t, t ∈ [0; 0; 0; 0; 0; 0; 0; 0; 0; 0; 0; 0] →
                      0 ≤ t ≤ 0 + 1000).
  { apply Forall_forall. repeat constructor; discriminate. }
  split; [exact Hwin |].
  exact (eviction_order [] 1000 0 0 0 0 0 0 0 0 0 0 0 0 0 Hwin).
Defined.

(** C7 with [maxSize = 0]: the second [set] evicts the entry of the first
    and keeps its own. *)
Lemma degenerate_capacity_keeps_last_witness :
  maxSize (mkOptions 1000 0) ≤ 0 ∧
  ∃ rs h',
    run (Cache.createCache (T := Z) (mkOptions 1000 0) []).1
        ([CallSet 0 0 "a" 1] ++ [CallSet 0 0 "b" 2])
        (Cache.createCache (T := Z) (mkOptions 1000 0) []).2 = Some (rs, h') ∧
    store_of (Cache.createCache (T := Z) (mkOptions 1000 0) []).1 h' =
      Some [("b", mkEntry 2 (0 + ttl (mkOptions 1000 0)))].
Proof.
  split; [discriminate |].
  apply (degenerate_capacity_keeps_last (mkOptions 1000 0) []
           [CallSet 0 0 "a" 1] 0 0 "b" 2).
  discriminate.
Defined.

(** C9 with [maxSize = 2]: writing ["b"] again evicts ["a"], which is
    still live, and leaves one entry. *)
Lemma set_existing_at_capacity_witness :
  JsMap.wf [("a", mkEntry 1 1000); ("b", mkEntry 2 1000)] ∧
  1 ≤ maxSize (mkOptions 1000 2) ∧
  "b" ∈ JsMap.keys (Closure.evictExpired 0
                      [("a", mkEntry 1 1000); ("b", mkEntry 2 1000)]) ∧
  Z.of_nat (JsMap.size (Closure.evictExpired 0
              [("a", mkEntry 1 1000); ("b", mkEntry 2 1000)])) =
    maxSize (mkOptions 1000 2) ∧
  ∃ oldest e rest,
    Closure.evictExpired 0 [("a", mkEntry 1 1000); ("b", mkEntry 2 1000)] =
      (oldest, e) :: rest ∧
    Closure.set (mkOptions 1000 2) 0 0 "b" 9
        [("a", mkEntry 1 1000); ("b", mkEntry 2 1000)] =
      JsMap.set "b" (mkEntry 9 (0 + ttl (mkOptions 1000 2))) rest ∧
    (oldest ≠ "b" →
       JsMap.get oldest (Closure.set (mkOptions 1000 2) 0 0 "b" 9
           [("a", mkEntry 1 1000); ("b", mkEntry 2 1000)]) = None ∧
       JsMap.get "b" (Closure.set (mkOptions 1000 2) 0 0 "b" 9
           [("a", mkEntry 1 1000); ("b", mkEntry 2 1000)]) =
         Some (mkEntry 9 (0 + ttl (mkOptions 1000 2))) ∧
       Z.of_nat (JsMap.size (Closure.set (mkOptions 1000 2) 0 0 "b" 9
           [("a", mkEntry 1 1000); ("b", mkEntry 2 1000)])) =
         maxSize (mkOptions 1000 2) - 1).
Proof.
  assert (Hwf : JsMap.wf [("a", mkEntry 1 1000); ("b", mkEntry 2 1000)])
    by (unfold JsMap.wf; cbn; compute_done).
  assert (Hk : "b" ∈ JsMap.keys (Closure.evictExpired 0
                      [("a", mkEntry 1 1000); ("b", mkEntry 2 1000)]))
    by (vm_compute; apply list_elem_of_further, list_elem_of_here).
  split_and!; [exact Hwf | discriminate | exact Hk | reflexivity |].
  apply (set_existing_at_capacity (mkOptions 1000 2) _ "b" 9 0 0 Hwf);
    [discriminate | exact Hk | reflexivity].
Defined.

(** C10 on a cache that holds the key asked for. *)
Lemma has_leaves_store_witness :
  [Cache.mkInstance (mkOptions 1000 2) [("a", mkEntry 1 1000)]] !! 0%nat =
    Some (Cache.mkInstance (mkOptions 1000 2) [("a", mkEntry 1 1000)]) ∧
  ∃ r h',
    Cache.has 0 0 0 "a"
      [Cache.mkInstance (mkOptions 1000 2) [("a", mkEntry 1 1000)]] =
      Some (r, h') ∧
    h' !! 0%nat =
      Some (Cache.mkInstance (mkOptions 1000 2) [("a", mkEntry 1 1000)]) ∧
    store_of 0 h' =
      store_of 0 [Cache.mkInstance (mkOptions 1000 2) [("a", mkEntry 1 1000)]] ∧
    (∀ c' inst',
       [Cache.mkInstance (mkOptions 1000 2) [("a", mkEntry 1 1000)]] !! c' =
         Some inst' →
       h' !! c' = Some inst').
Proof.
  split; [reflexivity |].
  apply (has_leaves_store 0 0 0 "a"
           [Cache.mkInstance (mkOptions 1000 2) [("a", mkEntry 1 1000)]]).
  reflexivity.
Defined.

(** C6 below capacity: writing ["a"] again leaves the keys in the order
    ["a"], ["b"]. *)
Lemma set_keeps_position_witness :
  JsMap.keys (Closure.set (mkOptions 1000 3) 0 0 "a" 7
                [("a", mkEntry 1 1000); ("b", mkEntry 2 1000)]) =
    JsMap.keys [("a", mkEntry 1 1000); ("b", mkEntry 2 1000)].
Proof.
  apply (set_keeps_position (mkOptions 1000 3)
           [("a", mkEntry 1 1000); ("b", mkEntry 2 1000)] "a" 7 0 0).
  - intros p Hp. rewrite !elem_of_cons, elem_of_nil in Hp.
    destruct Hp as [-> | [-> | []]]; discriminate.
  - reflexivity.
  - apply list_elem_of_here.
Defined.

(** C8 on an entry that expired at the instant 5 and was never swept. *)
Lemma delete_reports_presence_witness :
  (Closure.delete "a" [("a", mkEntry 1 5)]).1 = true ∧
  (Closure.get 9 9 "a" (Closure.delete "a" [("a", mkEntry 1 5)]).2).1 = None.
Proof.
  pose proof (delete_reports_presence [("a", mkEntry 1 5)] "a")
    as (_ & _ & Hexpired & Hget).
  split; [| apply Hget].
  apply (Hexpired (mkEntry 1 5) 9); [apply list_elem_of_here | reflexivity].
Defined.

(** ** Further facts about [JsMap] *)

Section JsMapMore.
Context {V : Type}.
Implicit Types (m : JsMap.t V) (k key : string) (v : V).

Lemma keys_filter_notin (P : string * V → Prop) `{!∀ p, Decision (P p)} k m :
  k ∉ JsMap.keys m → k ∉ JsMap.keys (filter P m).
Proof.
  rewrite !elem_of_keys. intros Hk [v [_ Hin]%list_elem_of_filter].
  apply Hk. by exists v.
Qed.

(** Looking a key up in a filtered map: the binding of the key, when it
    passes the filter. *)
Lemma get_filter (P : string * V → Prop) `{!∀ p, Decision (P p)} k m :
  JsMap.wf m →
  JsMap.get k (filter P m) =
    match JsMap.get k m with
    | Some v => if decide (P (k, v)) then Some v else None
    | None => None
    end.
Proof.
  induction m as [|[k' v'] m IH]; [done |].
  rewrite wf_cons. intros [Hk' Hwf]. rewrite filter_cons. cbn [JsMap.get].
  destruct (decide (k' = k)) as [-> | Hne].
  - destruct (decide (P (k, v'))) as [HP | HP].
    + cbn [JsMap.get]. by rewrite decide_True.
    + by apply get_None, keys_filter_notin.
  - rewrite <- IH by done.
    destruct (decide (P (k', v'))); [| done].
    cbn [JsMap.get]. by rewrite decide_False.
Qed.

Lemma get_remove_ne k k' m :
  k ≠ k' → JsMap.get k' (JsMap.remove k m) = JsMap.get k' m.
Proof.
  intros Hne. unfold JsMap.remove. induction m as [|[k0 v0] m IH]; [done |].
  rewrite filter_cons. cbn [fst JsMap.get].
  destruct (decide (k0 ≠ k)) as [Hk0 | Hk0].
  - cbn [JsMap.get]. by rewrite IH.
  - apply dec_stable in Hk0 as ->. by rewrite decide_False.
Qed.

Lemma get_remove_same k m : JsMap.get k (JsMap.remove k m) = None.
Proof. apply get_None. rewrite keys_remove, list_elem_of_filter. tauto. Qed.

Lemma get_set_ne k k' v m :
  k ≠ k' → JsMap.get k' (JsMap.set k v m) = JsMap.get k' m.
Proof.
  intros Hne. induction m as [|[k0 v0] m IH]; cbn [JsMap.set JsMap.get].
  - by rewrite decide_False.
  - destruct (decide (k0 = k)) as [-> | Hk0]; cbn [JsMap.get].
    + by rewrite !decide_False.
    + by rewrite IH.
Qed.

Lemma set_fresh k v m : k ∉ JsMap.keys m → JsMap.set k v m = m ++ [(k, v)].
Proof.
  induction m as [|[k0 v0] m IH]; [done |].
  rewrite keys_cons, not_elem_of_cons. intros [Hne Hk]. cbn [JsMap.set].
  rewrite decide_False by done. by rewrite IH.
Qed.

Lemma remove_absent k m : k ∉ JsMap.keys m → JsMap.remove k m = m.
Proof.
  intros Hk. apply filter_all. intros [k' v'] Hin. cbn [fst]. intros ->.
  apply Hk, elem_of_keys. by exists v'.
Qed.

Lemma size_remove_present k m :
  JsMap.wf m → k ∈ JsMap.keys m →
  S (JsMap.size (JsMap.remove k m)) = JsMap.size m.
Proof.
  induction m as [|[k' v'] m IH].
  - intros _ Hk. by apply elem_of_nil in Hk.
  - intros Hwf Hk. destruct (decide (k' = k)) as [-> | Hne].
    + by rewrite remove_head.
    + apply wf_cons in Hwf as [_ Hwf].
      rewrite keys_cons, elem_of_cons in Hk.
      destruct Hk as [-> | Hk]; [done |].
      unfold JsMap.remove, JsMap.size in *.
      rewrite filter_cons_True by done. cbn [length]. by rewrite IH.
Qed.
End JsMapMore.

(** ** Further properties of the closure *)

Section ClosureMore.
Context {T : Type}.
Implicit Types (s : Closure.Store T) (key k : string) (v : T).
Implicit Types (e : CacheEntry T) (o : CacheOptions) (now : Z).

(** What a sweep leaves is not expired, on any store. *)
Lemma evictExpired_all_live now s p :
  p ∈ Closure.evictExpired now s → ¬ expiresAt p.2 < now.
Proof.
  unfold Closure.evictExpired. rewrite evictExpired_loop, list_elem_of_filter.
  intros [Hk Hin] Hlt. apply Hk. unfold expired_keys.
  apply list_elem_of_fmap. exists p. by rewrite list_elem_of_filter.
Qed.

(** A second sweep at the same instant finds nothing. *)
Lemma evictExpired_again now s s' :
  (∀ p, p ∈ s' → p ∈ Closure.evictExpired now s) →
  Closure.evictExpired now s' = s'.
Proof.
  intros Hsub. apply evictExpired_id. intros p Hp%Hsub.
  by apply evictExpired_all_live in Hp.
Qed.

(** X1. [evictExpired] deletes exactly the entries whose [expiresAt] is
    strictly before [now]: an entry is in the store after the sweep if and
    only if it was there before and is not expired, and the entries that
    stay keep their order. *)
Theorem evictExpired_spec now s :
  JsMap.wf s →
  (∀ p, p ∈ Closure.evictExpired now s ↔ p ∈ s ∧ ¬ expiresAt p.2 < now) ∧
  Closure.evictExpired now s `sublist_of` s.
Proof.
  intros Hwf. rewrite evictExpired_live by done. unfold live. split.
  - intros p. rewrite list_elem_of_filter. tauto.
  - apply sublist_filter.
Qed.

(** X2. Sweeps compose: after a sweep at the instant [now], a sweep at a
    later instant [now'] leaves what a single sweep at [now'] would have
    left, so an earlier call never changes what a later sweep keeps. *)
Theorem evictExpired_later now now' s :
  JsMap.wf s → now ≤ now' →
  Closure.evictExpired now' (Closure.evictExpired now s) =
    Closure.evictExpired now' s.
Proof.
  intros Hwf Hle.
  rewrite (evictExpired_live now' (Closure.evictExpired now s))
    by by apply wf_evictExpired.
  rewrite !evictExpired_live by done. unfold live.
  rewrite list_filter_filter. apply list_filter_iff. intros p. lia.
Qed.

(** X3. [evictOldest] removes the first entry of the store when the store
    holds [maxSize] entries or more, and nothing otherwise: it never removes
    more than one entry, and never one that is not the oldest. *)
Theorem evictOldest_spec o s :
  JsMap.wf s →
  Closure.evictOldest o s =
    (if decide (maxSize o ≤ Z.of_nat (JsMap.size s)) then tail s else s).
Proof.
  intros Hwf. case_decide as Hfull.
  - destruct s as [|[k e] s]; [apply evictOldest_empty |].
    by apply evictOldest_head.
  - by apply evictOldest_below.
Qed.

(** X4. The value that [get(key)] returns is decided by the entry that the
    store holds for [key] and by the two readings of the clock: nothing when
    there is no entry or when its [expiresAt] is strictly before one of the
    readings, the value of the entry otherwise. So [get] never returns an
    expired value, nor a value that is not stored under [key]. *)
Theorem get_result_spec r1 r2 key s :
  JsMap.wf s →
  (Closure.get r1 r2 key s).1 =
    match JsMap.get key s with
    | Some e =>
        if decide (expiresAt e < r1 ∨ expiresAt e < r2) then None
        else Some (value e)
    | None => None
    end.
Proof.
  intros Hwf. unfold Closure.get. rewrite evictExpired_live by done.
  unfold live. rewrite get_filter by done.
  destruct (JsMap.get key s) as [e|]; [| done]. cbn [snd].
  destruct (decide (¬ expiresAt e < r1)) as [H1 | H1].
  - destruct (decide (expiresAt e < r2)) as [H2 | H2]; cbn [fst].
    + rewrite decide_True; [done | by right].
    + rewrite decide_False; [done | tauto].
  - cbn [fst]. rewrite decide_True; [done | left; lia].
Qed.

(** X5. [get(key)] returns nothing exactly when the store holds no entry
    for [key] once the call is over: a read that misses because the entry
    has expired also deletes the entry. *)
Theorem get_miss_iff_absent r1 r2 key s :
  (Closure.get r1 r2 key s).1 = None ↔
  key ∉ JsMap.keys (Closure.get r1 r2 key s).2.
Proof.
  unfold Closure.get.
  destruct (JsMap.get key (Closure.evictExpired r1 s)) as [e|] eqn:Hget.
  - case_decide; cbn [fst snd JsMap.delete].
    + split; [intros _ | done]. apply get_None, get_remove_same.
    + split; [done |]. intros Hk%get_None. congruence.
  - cbn [fst snd]. split; [intros _ | done]. by apply get_None.
Qed.

(** X6. [get] is idempotent: a second [get(key)] with the same readings of
    the clock returns the same result and leaves the store as the first one
    left it. *)
Theorem get_idempotent r1 r2 key s :
  Closure.get r1 r2 key (Closure.get r1 r2 key s).2 = Closure.get r1 r2 key s.
Proof.
  unfold Closure.get.
  destruct (JsMap.get key (Closure.evictExpired r1 s)) as [e|] eqn:Hget.
  - case_decide as Hlate; cbn [snd JsMap.delete].
    + rewrite (evictExpired_again r1 s).
      * by rewrite get_remove_same.
      * intros p. unfold JsMap.remove. rewrite list_elem_of_filter. tauto.
    + rewrite (evictExpired_again r1 s) by done.
      rewrite Hget. by rewrite decide_False.
  - cbn [snd]. rewrite (evictExpired_again r1 s) by done. by rewrite Hget.
Qed.


(** X8. Below capacity, [set(key, v)] leaves the other keys alone: when
    fewer than [maxSize] entries are left after the sweep, a read of another
    key at an instant not before the sweep returns what it would have
    returned without the [set]. *)
Theorem set_frame o s key key' v w1 w2 r1 r2 :
  JsMap.wf s → key ≠ key' →
  Z.of_nat (JsMap.size (Closure.evictExpired w1 s)) < maxSize o →
  w1 ≤ r1 →
  (Closure.get r1 r2 key' (Closure.set o w1 w2 key v s)).1 =
    (Closure.get r1 r2 key' s).1.
Proof.
  intros Hwf Hne Hroom Hle.
  rewrite !get_result_spec by (done || by apply wf_closure_set).
  unfold Closure.set. rewrite evictOldest_below by lia.
  rewrite get_set_ne by done. rewrite evictExpired_live by done.
  unfold live. rewrite get_filter by done.
  destruct (JsMap.get key' s) as [e|]; [| done]. cbn [snd].
  destruct (decide (¬ expiresAt e < w1)) as [Hlive | Hdead]; [done |].
  rewrite decide_True; [done | left; lia].
Qed.

(** X9. At capacity, [set] of a key that is not among the younger entries
    evicts the oldest entry, keeps the others in their order and appends
    the new entry: eviction is first in, first out, and the number of
    entries does not change. *)
Theorem set_at_capacity_fifo o s key v w1 w2 oldest e rest :
  JsMap.wf s →
  Closure.evictExpired w1 s = (oldest, e) :: rest →
  maxSize o ≤ Z.of_nat (S (JsMap.size rest)) →
  key ∉ JsMap.keys rest →
  Closure.set o w1 w2 key v s = rest ++ [(key, mkEntry v (w2 + ttl o))] ∧
  JsMap.size (Closure.set o w1 w2 key v s) =
    JsMap.size (Closure.evictExpired w1 s).
Proof.
  intros Hwf%(wf_evictExpired w1) Hsweep Hfull Hkey. unfold Closure.set.
  rewrite Hsweep in *. rewrite evictOldest_head by done.
  rewrite set_fresh by done. split; [done |].
  unfold JsMap.size. rewrite length_app. cbn [length]. lia.
Qed.

(** X10. [delete(key)] removes one entry when it returns [true] and none
    when it returns [false], leaves the entries of the other keys as they
    were, and a second [delete(key)] returns [false]. *)
Theorem delete_effect key s :
  JsMap.wf s →
  JsMap.size s =
    (JsMap.size (Closure.delete key s).2 +
       (if (Closure.delete key s).1 then 1 else 0))%nat ∧
  (∀ key', key ≠ key' →
     JsMap.get key' (Closure.delete key s).2 = JsMap.get key' s) ∧
  (Closure.delete key (Closure.delete key s).2).1 = false.
Proof.
  intros Hwf. cbn [Closure.delete JsMap.delete fst snd]. split_and!.
  - unfold JsMap.has. case_bool_decide as Hk.
    + rewrite <- (size_remove_present key s) by done. lia.
    + rewrite remove_absent by done. lia.
  - intros key' Hne. by apply get_remove_ne.
  - unfold JsMap.has. apply bool_decide_eq_false.
    rewrite keys_remove, list_elem_of_filter. tauto.
Qed.
End ClosureMore.

(** ** Further properties of traces *)

Section TracesMore.
Context {T : Type}.
Implicit Types (s : Closure.Store T) (key k : string) (v : T).
Implicit Types (o : CacheOptions) (call : Call T) (calls : list (Call T)).
Implicit Types (h : Cache.Heap T) (inst : Cache.Instance T) (c : nat).

Lemma store_run_app o calls calls' s :
  store_run o (calls ++ calls') s = store_run o calls' (store_run o calls s).
Proof. unfold store_run. apply foldl_app. Qed.

Lemma store_results_app o calls calls' s :
  store_results o (calls ++ calls') s =
    store_results o calls s ++ store_results o calls' (store_run o calls s).
Proof.
  revert s. induction calls as [|call calls IH]; intros s; [done |].
  cbn [app store_results]. by rewrite IH.
Qed.

(** An entry of the store after a call was there before, or the call is the
    [set] that wrote it. *)
Lemma store_step_elem o call s p :
  p ∈ store_step o call s →
  p ∈ s ∨ ∃ w1 w2 v, call = CallSet w1 w2 p.1 v ∧
                     p.2 = mkEntry v (w2 + ttl o).
Proof.
  destruct call as [r1 r2 k|w1 w2 k v|r1 r2 k|k| |now]; cbn [store_step].
  - unfold Closure.get. destruct (JsMap.get k _) as [e'|].
    + case_decide; cbn [snd JsMap.delete]; [unfold JsMap.remove;
        rewrite list_elem_of_filter; intros [_ Hin] | intros Hin];
        left; by apply evictExpired_elem in Hin.
    + intros Hin. left. by apply evictExpired_elem in Hin.
  - unfold Closure.set. intros [-> | Hin]%elem_of_set.
    + right. by exists w1, w2, v.
    + left. by apply evictOldest_elem, evictExpired_elem in Hin.
  - by left.
  - cbn [Closure.delete JsMap.delete snd]. unfold JsMap.remove.
    rewrite list_elem_of_filter. tauto.
  - intros Hin. by apply elem_of_nil in Hin.
  - intros Hin. left. by apply evictExpired_elem in Hin.
Qed.

Lemma store_run_elem o calls s p :
  p ∈ store_run o calls s →
  p ∈ s ∨ ∃ w1 w2 v, CallSet w1 w2 p.1 v ∈ calls ∧
                     p.2 = mkEntry v (w2 + ttl o).
Proof.
  revert s. induction calls as [|call calls IH]; intros s; [by left |].
  intros [Hin | (w1 & w2 & v & Hin & Hp)]%IH.
  - apply store_step_elem in Hin as [Hin | (w1 & w2 & v & -> & Hp)];
      [by left |].
    right. exists w1, w2, v. split; [apply list_elem_of_here | done].
  - right. exists w1, w2, v. split; [by apply list_elem_of_further | done].
Qed.

(** A value that a read returns is the value of an entry of the store that
    neither reading of the clock finds expired. *)
Lemma closure_get_Some r1 r2 key s v :
  (Closure.get r1 r2 key s).1 = Some v →
  ∃ e, (key, e) ∈ s ∧ value e = v ∧
       ¬ expiresAt e < r1 ∧ ¬ expiresAt e < r2.
Proof.
  unfold Closure.get.
  destruct (JsMap.get key _) as [e|] eqn:Hget; [| done].
  case_decide as Hlate; [done |]. cbn [fst]. intros [= <-].
  apply get_Some_elem in Hget. exists e. split_and!; [| done | | done].
  - by apply evictExpired_elem in Hget.
  - by apply evictExpired_all_live in Hget.
Qed.

(** X11. A [get(key)] returns only what was set: in a new cache, after any
    sequence of calls, the value that [get(key)] returns is the value of an
    earlier [set(key, v)] of that sequence, and neither reading of the clock
    made by the [get] is later than the instant of that [set] plus [ttl]. *)
Theorem get_returns_what_was_set o h calls r1 r2 key v rs h' :
  run (Cache.createCache o h).1 (calls ++ [CallGet r1 r2 key])
      (Cache.createCache o h).2 = Some (rs, h') →
  last rs = Some (RetValue (Some v)) →
  ∃ w1 w2, CallSet w1 w2 key v ∈ calls ∧
           r1 ≤ w2 + ttl o ∧ r2 ≤ w2 + ttl o.
Proof.
  intros Hrun Hlast.
  destruct (run_eq _ (calls ++ [CallGet r1 r2 key]) _ _
              (createCache_fresh o h)) as (h'' & Hrun' & _).
  rewrite Hrun in Hrun'. injection Hrun' as -> _.
  cbn [Cache.options Cache.store] in Hlast.
  rewrite store_results_app in Hlast. cbn [store_results] in Hlast.
  rewrite last_snoc in Hlast. cbn [store_result] in Hlast.
  injection Hlast as Hget.
  apply closure_get_Some in Hget as (e & Hin & Hv & H1 & H2).
  apply store_run_elem in Hin as [Hin | (w1 & w2 & v' & Hin & He)].
  - by apply elem_of_nil in Hin.
  - cbn [fst snd] in *. subst e. cbn [value expiresAt] in *. subst v'.
    exists w1, w2. split; [done | lia].
Qed.

(** X12. After [clear()] the cache stays empty until the next [set]: the
    calls that follow, as long as none of them is a [set], return nothing
    from [get], [false] from [has] and [delete], and 0 from [size], and
    leave the store empty. *)
Theorem clear_stays_empty c calls h inst :
  h !! c = Some inst →
  Forall (λ call, ∀ key, ¬ sets_key key call) calls →
  ∃ rs h',
    run c (CallClear :: calls) h = Some (RetVoid :: rs, h') ∧
    store_of c h' = Some [] ∧
    Forall (λ r, r = RetValue None ∨ r = RetBool false ∨
                 r = RetVoid ∨ r = RetSize 0) rs.
Proof.
  intros Hc Hcalls.
  destruct (run_eq c (CallClear :: calls) h inst Hc) as (h' & Hrun & Hc').
  cbn [store_results store_result store_run foldl store_step] in *.
  unfold Closure.clear, JsMap.clear in *.
  fold (store_run (Cache.options inst) calls []) in Hc'.
  assert (Hempty : store_run (Cache.options inst) calls [] = [] ∧
            Forall (λ r, r = RetValue None ∨ r = RetBool false ∨
                         r = RetVoid ∨ r = RetSize 0)
              (store_results (Cache.options inst) calls [])).
  { clear Hrun Hc'. induction Hcalls as [|call calls Hcall _ IH]; [done |].
    cbn [store_run foldl store_results].
    fold (store_run (Cache.options inst) calls
            (store_step (Cache.options inst) call [])).
    assert (Hstep : store_step (Cache.options inst) call [] = []).
    { destruct call; cbn [store_step]; try done.
      by destruct (Hcall key). }
    rewrite Hstep. destruct IH as [IHrun IHres]. split; [done |].
    constructor; [| done].
    destruct call; cbn [store_result]; auto. }
  destruct Hempty as [Hstore Hres].
  eexists _, h'. split; [exact Hrun |]. split; [| exact Hres].
  unfold store_of. by rewrite Hc', Hstore.
Qed.

(** A call on a cache leaves the other caches of the heap as they are. *)
Lemma exec_other c c' call h inst inst' :
  h !! c = Some inst → c' ≠ c → h !! c' = Some inst' →
  ∃ r h', exec c call h = Some (r, h') ∧
    h' !! c' = Some inst' ∧
    h' !! c = Some (Cache.mkInstance (Cache.options inst)
                      (store_step (Cache.options inst) call (Cache.store inst))).
Proof.
  intros Hc Hne Hc'. pose proof (lookup_lt_Some _ _ _ Hc) as Hlt.
  destruct call; cbn [exec store_step];
    unfold Cache.get, Cache.set, Cache.delete, Cache.clear, Cache.size;
    try (erewrite method_Some by exact Hc; cbn [fmap option_fmap option_map
           prod_map fst snd id]; eexists _, _; split; [reflexivity |];
         split; [by rewrite list_lookup_insert_ne
                | by apply list_lookup_insert_eq]).
  rewrite (has_eq _ _ _ _ _ _ Hc). eexists _, _. split; [reflexivity |].
  split; [by apply lookup_app_l_Some |].
  destruct inst. by apply lookup_app_l_Some.
Qed.

(** X13. Caches are independent: whatever calls are made on one cache, any
    other cache of the heap keeps its options and its store. *)
Theorem run_other_cache c c' calls h inst inst' :
  h !! c = Some inst → c' ≠ c → h !! c' = Some inst' →
  ∃ rs h', run c calls h = Some (rs, h') ∧ h' !! c' = Some inst'.
Proof.
  revert h inst. induction calls as [|call calls IH]; intros h inst Hc Hne Hc'.
  - by exists [], h.
  - destruct (exec_other c c' call h inst inst' Hc Hne Hc')
      as (r & h1 & Hexec & Hc1' & Hc1).
    destruct (IH h1 _ Hc1 Hne Hc1') as (rs & h2 & Hrun & Hc2').
    exists (r :: rs), h2. cbn [run]. rewrite Hexec. cbn [mbind option_bind].
    rewrite Hrun. done.
Qed.
End TracesMore.

(** ** The further properties at concrete caches *)

Lemma wf_pair {V : Type} (v1 v2 : V) : JsMap.wf [("a", v1); ("b", v2)].
Proof.
  apply wf_cons. split; [| apply NoDup_singleton].
  by intros [= ]%list_elem_of_singleton.
Qed.

(** X1 on a store whose oldest entry expired at the instant 5. *)
Lemma evictExpired_spec_witness :
  JsMap.wf [("a", mkEntry 1 5); ("b", mkEntry 2 50)] ∧
  (∀ p, p ∈ Closure.evictExpired 10 [("a", mkEntry 1 5); ("b", mkEntry 2 50)] ↔
        p ∈ [("a", mkEntry 1 5); ("b", mkEntry 2 50)] ∧ ¬ expiresAt p.2 < 10) ∧
  Closure.evictExpired 10 [("a", mkEntry 1 5); ("b", mkEntry 2 50)]
    `sublist_of` [("a", mkEntry 1 5); ("b", mkEntry 2 50)].
Proof.
  split; [apply wf_pair |].
  apply (evictExpired_spec 10 [("a", mkEntry 1 5); ("b", mkEntry 2 50)]).
  apply wf_pair.
Defined.

(** X2 with sweeps at the instants 3 and 10. *)
Lemma evictExpired_later_witness :
  JsMap.wf [("a", mkEntry 1 5); ("b", mkEntry 2 50)] ∧ 3 ≤ 10 ∧
  Closure.evictExpired 10
    (Closure.evictExpired 3 [("a", mkEntry 1 5); ("b", mkEntry 2 50)]) =
  Closure.evictExpired 10 [("a", mkEntry 1 5); ("b", mkEntry 2 50)].
Proof.
  split_and!; [apply wf_pair | discriminate |].
  apply (evictExpired_later 3 10 [("a", mkEntry 1 5); ("b", mkEntry 2 50)]);
    [apply wf_pair | discriminate].
Defined.

(** X3 on a full store of capacity 2. *)
Lemma evictOldest_spec_witness :
  JsMap.wf [("a", mkEntry 1 5); ("b", mkEntry 2 50)] ∧
  Closure.evictOldest (mkOptions 1000 2)
      [("a", mkEntry 1 5); ("b", mkEntry 2 50)] =
    (if decide (maxSize (mkOptions 1000 2) ≤
                Z.of_nat (JsMap.size [("a", mkEntry 1 5); ("b", mkEntry 2 50)]))
     then tail [("a", mkEntry 1 5); ("b", mkEntry 2 50)]
     else [("a", mkEntry 1 5); ("b", mkEntry 2 50)]).
Proof.
  split; [apply wf_pair |].
  apply (evictOldest_spec (mkOptions 1000 2)
           [("a", mkEntry 1 5); ("b", mkEntry 2 50)]).
  apply wf_pair.
Defined.

(** X4 on a read whose second reading of the clock finds the entry
    expired. *)
Lemma get_result_spec_witness :
  JsMap.wf [("a", mkEntry 1 5); ("b", mkEntry 2 50)] ∧
  (Closure.get 5 6 "a" [("a", mkEntry 1 5); ("b", mkEntry 2 50)]).1 =
    match JsMap.get "a" [("a", mkEntry 1 5); ("b", mkEntry 2 50)] with
    | Some e =>
        if decide (expiresAt e < 5 ∨ expiresAt e < 6) then None
        else Some (value e)
    | None => None
    end.
Proof.
  split; [apply wf_pair |].
  apply (get_result_spec 5 6 "a" [("a", mkEntry 1 5); ("b", mkEntry 2 50)]).
  apply wf_pair.
Defined.


(** X8 with a third key written below a capacity of 5. *)
Lemma set_frame_witness :
  JsMap.wf [("a", mkEntry 1 5); ("b", mkEntry 2 50)] ∧ "c" ≠ "b" ∧
  Z.of_nat (JsMap.size (Closure.evictExpired 0
              [("a", mkEntry 1 5); ("b", mkEntry 2 50)])) <
    maxSize (mkOptions 1000 5) ∧
  0 ≤ 1 ∧
  (Closure.get 1 1 "b"
     (Closure.set (mkOptions 1000 5) 0 0 "c" 3
        [("a", mkEntry 1 5); ("b", mkEntry 2 50)])).1 =
    (Closure.get 1 1 "b" [("a", mkEntry 1 5); ("b", mkEntry 2 50)]).1.
Proof.
  split_and!; [apply wf_pair | discriminate | reflexivity | discriminate |].
  apply (set_frame (mkOptions 1000 5)
           [("a", mkEntry 1 5); ("b", mkEntry 2 50)] "c" "b" 3 0 0 1 1);
    [apply wf_pair | discriminate | reflexivity | discriminate].
Defined.

(** X9 with a third key written at a capacity of 2. *)
Lemma set_at_capacity_fifo_witness :
  JsMap.wf [("a", mkEntry 1 50); ("b", mkEntry 2 50)] ∧
  Closure.evictExpired 0 [("a", mkEntry 1 50); ("b", mkEntry 2 50)] =
    ("a", mkEntry 1 50) :: [("b", mkEntry 2 50)] ∧
  maxSize (mkOptions 1000 2) ≤
    Z.of_nat (S (JsMap.size [("b", mkEntry 2 50)])) ∧
  ("c" ∉ JsMap.keys [("b", mkEntry 2 50)]) ∧
  Closure.set (mkOptions 1000 2) 0 0 "c" 3
      [("a", mkEntry 1 50); ("b", mkEntry 2 50)] =
    [("b", mkEntry 2 50)] ++ [("c", mkEntry 3 (0 + ttl (mkOptions 1000 2)))] ∧
  JsMap.size (Closure.set (mkOptions 1000 2) 0 0 "c" 3
                [("a", mkEntry 1 50); ("b", mkEntry 2 50)]) =
    JsMap.size (Closure.evictExpired 0
                  [("a", mkEntry 1 50); ("b", mkEntry 2 50)]).
Proof.
  assert (Hkey : "c" ∉ JsMap.keys [("b", mkEntry 2 50)])
    by by intros [= ]%list_elem_of_singleton.
  split_and!; [apply wf_pair | reflexivity | discriminate | exact Hkey | |];
    apply (set_at_capacity_fifo (mkOptions 1000 2)
             [("a", mkEntry 1 50); ("b", mkEntry 2 50)] "c" 3 0 0
             "a" (mkEntry 1 50) [("b", mkEntry 2 50)]);
    (apply wf_pair || reflexivity || discriminate || exact Hkey).
Defined.

(** X10 on a key that the store holds. *)
Lemma delete_effect_witness :
  JsMap.wf [("a", mkEntry 1 5); ("b", mkEntry 2 50)] ∧
  JsMap.size [("a", mkEntry 1 5); ("b", mkEntry 2 50)] =
    (JsMap.size
       (Closure.delete "a" [("a", mkEntry 1 5); ("b", mkEntry 2 50)]).2 +
     (if (Closure.delete "a" [("a", mkEntry 1 5); ("b", mkEntry 2 50)]).1
      then 1 else 0))%nat ∧
  (∀ key', "a" ≠ key' →
     JsMap.get key'
       (Closure.delete "a" [("a", mkEntry 1 5); ("b", mkEntry 2 50)]).2 =
     JsMap.get key' [("a", mkEntry 1 5); ("b", mkEntry 2 50)]) ∧
  (Closure.delete "a"
     (Closure.delete "a" [("a", mkEntry 1 5); ("b", mkEntry 2 50)]).2).1 =
    false.
Proof.
  split; [apply wf_pair |].
  apply (delete_effect "a" [("a", mkEntry 1 5); ("b", mkEntry 2 50)]).
  apply wf_pair.
Defined.

(** X11 on a read that follows a write by 5 milliseconds. *)
Lemma get_returns_what_was_set_witness :
  run (Cache.createCache (T := Z) (mkOptions 1000 2) []).1
      ([CallSet 0 0 "a" 1] ++ [CallGet 5 5 "a"])
      (Cache.createCache (mkOptions 1000 2) []).2 =
    Some ([RetVoid; RetValue (Some 1)],
          [Cache.mkInstance (mkOptions 1000 2) [("a", mkEntry 1 1000)]]) ∧
  last [RetVoid; RetValue (Some 1)] = Some (RetValue (Some 1)) ∧
  ∃ w1 w2, CallSet w1 w2 "a" 1 ∈ [CallSet (T := Z) 0 0 "a" 1] ∧
           5 ≤ w2 + ttl (mkOptions 1000 2) ∧ 5 ≤ w2 + ttl (mkOptions 1000 2).
Proof.
  split_and!; [reflexivity | reflexivity |].
  apply (get_returns_what_was_set (mkOptions 1000 2) []
           [CallSet 0 0 "a" 1] 5 5 "a" 1 [RetVoid; RetValue (Some 1)]
           [Cache.mkInstance (mkOptions 1000 2) [("a", mkEntry 1 1000)]]);
    reflexivity.
Defined.

(** X12 on a cache of two entries. *)
Lemma clear_stays_empty_witness :
  [Cache.mkInstance (mkOptions 1000 2)
     [("a", mkEntry 1 5); ("b", mkEntry 2 50)]] !! 0%nat =
    Some (Cache.mkInstance (mkOptions 1000 2)
            [("a", mkEntry 1 5); ("b", mkEntry 2 50)]) ∧
  Forall (λ call : Call Z, ∀ key, ¬ sets_key key call)
    [CallGet 0 0 "a"; CallSize 0] ∧
  ∃ rs h',
    run 0 (CallClear :: [CallGet 0 0 "a"; CallSize 0])
      [Cache.mkInstance (mkOptions 1000 2)
         [("a", mkEntry 1 5); ("b", mkEntry 2 50)]] =
      Some (RetVoid :: rs, h') ∧
    store_of 0 h' = Some [] ∧
    Forall (λ r, r = RetValue None ∨ r = RetBool false ∨
                 r = RetVoid ∨ r = RetSize 0) rs.
Proof.
  assert (Hcalls : Forall (λ call : Call Z, ∀ key, ¬ sets_key key call)
                     [CallGet 0 0 "a"; CallSize 0]).
  { repeat constructor; intros key; cbn; tauto. }
  split_and!; [reflexivity | exact Hcalls |].
  apply (clear_stays_empty 0 [CallGet 0 0 "a"; CallSize 0]
           [Cache.mkInstance (mkOptions 1000 2)
              [("a", mkEntry 1 5); ("b", mkEntry 2 50)]]
           (Cache.mkInstance (mkOptions 1000 2)
              [("a", mkEntry 1 5); ("b", mkEntry 2 50)]));
    [reflexivity | exact Hcalls].
Defined.

(** X13 on a heap of two caches. *)
Lemma run_other_cache_witness :
  [Cache.mkInstance (mkOptions 1000 2) [("a", mkEntry 1 5)];
   Cache.mkInstance (mkOptions 10 1) [("b", mkEntry 2 50)]] !! 0%nat =
    Some (Cache.mkInstance (mkOptions 1000 2) [("a", mkEntry 1 5)]) ∧
  1%nat ≠ 0%nat ∧
  [Cache.mkInstance (mkOptions 1000 2) [("a", mkEntry 1 5)];
   Cache.mkInstance (mkOptions 10 1) [("b", mkEntry 2 50)]] !! 1%nat =
    Some (Cache.mkInstance (mkOptions 10 1) [("b", mkEntry 2 50)]) ∧
  ∃ rs h',
    run 0 [CallSet 0 0 "b" 7; CallHas 0 0 "b"; CallClear]
      [Cache.mkInstance (mkOptions 1000 2) [("a", mkEntry 1 5)];
       Cache.mkInstance (mkOptions 10 1) [("b", mkEntry 2 50)]] =
      Some (rs, h') ∧
    h' !! 1%nat = Some (Cache.mkInstance (mkOptions 10 1) [("b", mkEntry 2 50)]).
Proof.
  split_and!; [reflexivity | discriminate | reflexivity |].
  apply (run_other_cache 0 1 [CallSet 0 0 "b" 7; CallHas 0 0 "b"; CallClear]
           [Cache.mkInstance (mkOptions 1000 2) [("a", mkEntry 1 5)];
            Cache.mkInstance (mkOptions 10 1) [("b", mkEntry 2 50)]]
           (Cache.mkInstance (mkOptions 1000 2) [("a", mkEntry 1 5)])
           (Cache.mkInstance (mkOptions 10 1) [("b", mkEntry 2 50)]));
    [reflexivity | discriminate | reflexivity].
Defined.
